(** * Login rate limiter ([src/lib/rate-limit.ts]): model and properties

    The limiter keeps one row per identifier in the [loginRateLimits]
    table and decides, from the row and the clock, whether a login attempt
    may proceed.

    - The table is a finite map keyed by the identifier; the database calls
      are a small state monad over that map.
    - [Date.now()] is an explicit argument [nowMs]; timestamps and counts
      are integers ([Z]), dates are held as their [getTime()] value.
    - Calls are taken one at a time: a call reads the clock and runs its
      transaction before the next call starts.  Properties of tables built
      by call sequences ([reachable]) assume a clock that does not run
      backwards. *)

From Stdlib Require Import ZArith Lia Ascii String.
From stdpp Require Import gmap strings list fin_maps pretty.

Open Scope Z_scope.
Open Scope string_scope.

(** ** Configuration *)

Record Config := {
  WINDOW_MS : Z;
  MAX_ATTEMPTS : Z;
  BLOCK_DURATION_MS : Z
}.

Definition CONFIG : Config := {|
  WINDOW_MS := 15 * 60 * 1000;
  MAX_ATTEMPTS := 5;
  BLOCK_DURATION_MS := 30 * 60 * 1000
|}.

(** ** Arithmetic helpers *)

(** [Math.ceil(x / d)] for an integer [x] and a positive integer [d].
    Timestamps are integer milliseconds, far below 2^53, so the
    floating-point quotient rounds up to the exact ceiling. *)
Definition ceilDiv (x d : Z) : Z := - ((- x) / d).

Definition secondsUntil (targetMs nowMs : Z) : Z :=
  Z.max 0 (ceilDiv (targetMs - nowMs) 1000).

(** ** Data model *)

Record RateLimitResult := {
  success : bool;
  remaining : Z;
  resetIn : Z;
  blocked : bool;
  message : option string
}.

(** Modelled from the spec: the schema of [loginRateLimits] is declared in
    [@/lib/db], outside [src/].  The columns are those the limiter reads
    and writes (AttemptRecord in the spec); [identifier] is unique, so it
    is the key of the table and not a field of the row.  Dates are held as
    their [getTime()] value, a nullable column as an [option]. *)
Record LoginRateLimit := {
  count : Z;
  firstAttemptAt : Z;
  lastAttemptAt : Z;
  blockedUntil : option Z
}.

Abbreviation Table := (gmap string LoginRateLimit).

(** ** The database monad *)

Definition DB (A : Type) : Type := Table -> A * Table.

Definition ret {A} (a : A) : DB A := fun t => (a, t).

Definition bind {A B} (c : DB A) (k : A -> DB B) : DB B :=
  fun t => let '(a, t') := c t in k a t'.

Notation "'const' x ':=' 'await' c ;; k" := (bind c (fun x => k))
  (at level 10, x name, c at level 99, k at level 200).
Notation "'await' c ;; k" := (bind c (fun _ => k))
  (at level 10, c at level 99, k at level 200).

(** [db.query.loginRateLimits.findFirst({ where: eq(identifier, id) })] *)
Definition findFirst (identifier : string) : DB (option LoginRateLimit) :=
  fun t => (t !! identifier, t).

(** [tx.select().from(loginRateLimits).where(eq(identifier, id)).for("update")] *)
Definition selectForUpdate (identifier : string) : DB (list LoginRateLimit) :=
  fun t => (option_list (t !! identifier), t).

(** [tx.insert(loginRateLimits).values({ identifier, ... })] *)
Definition insertValues (identifier : string) (r : LoginRateLimit) : DB unit :=
  fun t => (tt, <[identifier := r]> t).

(** [tx.update(loginRateLimits).set({...}).where(eq(identifier, id))];
    [set] rewrites the listed columns and keeps the others. *)
Definition updateSet (identifier : string)
    (set : LoginRateLimit -> LoginRateLimit) : DB unit :=
  fun t => (tt, alter set identifier t).

(** [db.delete(loginRateLimits).where(eq(identifier, id))] *)
Definition deleteWhere (identifier : string) : DB unit :=
  fun t => (tt, delete identifier t).

(** [db.transaction(async (tx) => ...)]: calls are taken one at a time, so
    the body runs on the table as it stands. *)
Definition transaction {A} (body : DB A) : DB A := body.

(** ** Messages (template strings; the literals hold their UTF-8 bytes) *)

Definition msgBlockedRetry (resetIn : Z) : string :=
  "登录尝试次数过多，请 " +:+ pretty (ceilDiv resetIn 60) +:+ " 分钟后再试".

Definition msgWindowExhausted : string := "尝试次数过多，请稍后再试".

Definition msgLocked (resetIn : Z) : string :=
  "登录尝试次数过多，账户已被临时锁定 " +:+ pretty (ceilDiv resetIn 60) +:+ " 分钟".

Definition msgRemaining (remaining : Z) : string :=
  "还剩 " +:+ pretty remaining +:+ " 次尝试机会".

(** ** checkRateLimit *)

Definition checkRateLimit (identifier : string) (nowMs : Z)
    : DB RateLimitResult :=
  const record := await findFirst identifier ;;
  match record with
  | None =>
      ret {| success := true;
             remaining := MAX_ATTEMPTS CONFIG;
             resetIn := secondsUntil (nowMs + WINDOW_MS CONFIG) nowMs;
             blocked := false;
             message := None |}
  | Some record =>
      (* the code after the [if (record.blockedUntil)] statement *)
      let notBlocked :=
        let windowStartMs := firstAttemptAt record in
        let windowEndsMs := windowStartMs + WINDOW_MS CONFIG in
        if decide (nowMs > windowEndsMs) then
          ret {| success := true;
                 remaining := MAX_ATTEMPTS CONFIG;
                 resetIn := secondsUntil (nowMs + WINDOW_MS CONFIG) nowMs;
                 blocked := false;
                 message := None |}
        else
          let remaining := MAX_ATTEMPTS CONFIG - count record in
          if decide (remaining <= 0) then
            ret {| success := false;
                   remaining := 0;
                   resetIn := secondsUntil windowEndsMs nowMs;
                   blocked := false;
                   message := Some msgWindowExhausted |}
          else
            ret {| success := true;
                   remaining := remaining;
                   resetIn := secondsUntil windowEndsMs nowMs;
                   blocked := false;
                   message := None |} in
      match blockedUntil record with
      | Some blockedUntilMs =>
          if decide (blockedUntilMs > nowMs) then
            let resetIn := secondsUntil blockedUntilMs nowMs in
            ret {| success := false;
                   remaining := 0;
                   resetIn := resetIn;
                   blocked := true;
                   message := Some (msgBlockedRetry resetIn) |}
          else notBlocked
      | None => notBlocked
      end
  end.

(** ** recordFailedAttempt *)

Definition recordFailedAttempt (identifier : string) (nowMs : Z)
    : DB RateLimitResult :=
  let now := nowMs in
  transaction (
    const existingRows := await selectForUpdate identifier ;;
    match existingRows !! 0%nat with
    | None =>
        await insertValues identifier
                {| count := 1;
                   firstAttemptAt := now;
                   lastAttemptAt := now;
                   blockedUntil := None |} ;;
        ret {| success := true;
               remaining := MAX_ATTEMPTS CONFIG - 1;
               resetIn := secondsUntil (nowMs + WINDOW_MS CONFIG) nowMs;
               blocked := false;
               message := None |}
    | Some record =>
        (* the code after the [if (record.blockedUntil)] statement *)
        let notBlocked :=
          let windowStartMs := firstAttemptAt record in
          let windowEndsMs := windowStartMs + WINDOW_MS CONFIG in
          let shouldResetWindow := bool_decide (nowMs > windowEndsMs) in
          if shouldResetWindow then
            await updateSet identifier (fun _ =>
                    {| count := 1;
                       firstAttemptAt := now;
                       lastAttemptAt := now;
                       blockedUntil := None |}) ;;
            ret {| success := true;
                   remaining := MAX_ATTEMPTS CONFIG - 1;
                   resetIn := secondsUntil (nowMs + WINDOW_MS CONFIG) nowMs;
                   blocked := false;
                   message := None |}
          else
            let newCount := count record + 1 in
            if decide (newCount >= MAX_ATTEMPTS CONFIG) then
              let blockedUntilMs := nowMs + BLOCK_DURATION_MS CONFIG in
              await updateSet identifier (fun row =>
                      {| count := newCount;
                         firstAttemptAt := firstAttemptAt row;
                         lastAttemptAt := now;
                         blockedUntil := Some blockedUntilMs |}) ;;
              let resetIn := secondsUntil blockedUntilMs nowMs in
              ret {| success := false;
                     remaining := 0;
                     resetIn := resetIn;
                     blocked := true;
                     message := Some (msgLocked resetIn) |}
            else
              await updateSet identifier (fun row =>
                      {| count := newCount;
                         firstAttemptAt := firstAttemptAt row;
                         lastAttemptAt := now;
                         blockedUntil := blockedUntil row |}) ;;
              let remaining := MAX_ATTEMPTS CONFIG - newCount in
              ret {| success := true;
                     remaining := remaining;
                     resetIn := secondsUntil windowEndsMs nowMs;
                     blocked := false;
                     message := if decide (remaining <= 2)
                                then Some (msgRemaining remaining)
                                else None |} in
        match blockedUntil record with
        | Some blockedUntilMs =>
            if decide (blockedUntilMs > nowMs) then
              let resetIn := secondsUntil blockedUntilMs nowMs in
              ret {| success := false;
                     remaining := 0;
                     resetIn := resetIn;
                     blocked := true;
                     message := Some (msgBlockedRetry resetIn) |}
            else notBlocked
        | None => notBlocked
        end
    end).

(** ** clearRateLimit *)

Definition clearRateLimit (identifier : string) : DB unit :=
  await deleteWhere identifier ;;
  ret tt.

(** ** getClientIP *)

(** The request headers, keyed by lower-case name: [Headers.get] looks a
    name up and returns its value or [null].  A header value is a byte
    string, so each character of what [get] returns is one code unit below
    256, held here as one [ascii]. *)
Abbreviation Headers := (gmap string string).

Definition get (headers : Headers) (name : string) : option string :=
  headers !! name.

(** JavaScript truthiness of a [string | null]: neither [null] nor empty. *)
Definition truthy (v : option string) : bool :=
  match v with
  | Some (String _ _) => true
  | _ => false
  end.

(** [s.split(sep)] for a one-character separator. *)
Fixpoint split (sep : ascii) (s : string) : list string :=
  match s with
  | EmptyString => [EmptyString]
  | String c rest =>
      if Ascii.eqb c sep then EmptyString :: split sep rest
      else match split sep rest with
           | piece :: pieces => String c piece :: pieces
           | [] => [String c EmptyString]
           end
  end.

(** The WhiteSpace and LineTerminator code units below 256: TAB, LF, VT,
    FF, CR, SP and NBSP. *)
Definition isWhiteSpace (c : ascii) : bool :=
  let n := nat_of_ascii c in
  bool_decide (n = 9 \/ n = 10 \/ n = 11 \/ n = 12 \/ n = 13 \/ n = 32 \/ n = 160)%nat.

Fixpoint trimStart (s : string) : string :=
  match s with
  | EmptyString => EmptyString
  | String c rest => if isWhiteSpace c then trimStart rest else s
  end.

Fixpoint trimEnd (s : string) : string :=
  match s with
  | EmptyString => EmptyString
  | String c rest =>
      match trimEnd rest with
      | EmptyString => if isWhiteSpace c then EmptyString else String c EmptyString
      | kept => String c kept
      end
  end.

Definition trim (s : string) : string := trimEnd (trimStart s).

(** [None] stands for the [TypeError] of calling [trim] on [undefined]. *)
Definition getClientIP (headers : Headers) : option string :=
  let cfConnectingIP := get headers "cf-connecting-ip" in
  if truthy cfConnectingIP then cfConnectingIP
  else
    let xForwardedFor := get headers "x-forwarded-for" in
    if truthy xForwardedFor then
      match xForwardedFor with
      | Some xForwardedFor => trim <$> (split "," xForwardedFor !! 0%nat)
      | None => None
      end
    else
      let xRealIP := get headers "x-real-ip" in
      if truthy xRealIP then xRealIP
      else Some "unknown".

(** ** Call sequences *)

Inductive Call :=
| Check (identifier : string)
| RecordFailure (identifier : string)
| Clear (identifier : string).

(** One call of the request handler at clock reading [nowMs]; [clear]
    resolves to no value. *)
Definition perform (c : Call) (nowMs : Z) : DB (option RateLimitResult) :=
  match c with
  | Check identifier =>
      const r := await checkRateLimit identifier nowMs ;; ret (Some r)
  | RecordFailure identifier =>
      const r := await recordFailedAttempt identifier nowMs ;; ret (Some r)
  | Clear identifier =>
      await clearRateLimit identifier ;; ret None
  end.

Definition tableAfter (c : Call) (nowMs : Z) (t : Table) : Table :=
  (perform c nowMs t).2.

(** Tables reachable from the empty one by calls made one after the other,
    each reading a clock that does not run backwards; the index is the
    latest clock reading. *)
Inductive reachable : Z -> Table -> Prop :=
| reachable_empty nowMs :
    reachable nowMs ∅
| reachable_call lastMs nowMs c t :
    reachable lastMs t ->
    lastMs <= nowMs ->
    reachable nowMs (tableAfter c nowMs t).

(** Failures recorded one after the other for one identifier. *)
Fixpoint recordFailures (identifier : string) (times : list Z)
    : DB (list RateLimitResult) :=
  match times with
  | [] => ret []
  | nowMs :: later =>
      const r := await recordFailedAttempt identifier nowMs ;;
      const rs := await recordFailures identifier later ;;
      ret (r :: rs)
  end.

(** Calls made one after the other, each with its clock reading. *)
Fixpoint runCalls (calls : list (Z * Call)) (t : Table) : Table :=
  match calls with
  | [] => t
  | (nowMs, c) :: later => runCalls later (tableAfter c nowMs t)
  end.

(** ** Predicates used in the statements *)

(** The row carries no block that is still running at [nowMs]. *)
Definition noActiveBlock (r : LoginRateLimit) (nowMs : Z) : Prop :=
  match blockedUntil r with
  | Some blockedUntilMs => blockedUntilMs <= nowMs
  | None => True
  end.

(** The row written by the first failure of a window. *)
Definition freshRow (nowMs : Z) : LoginRateLimit :=
  {| count := 1;
     firstAttemptAt := nowMs;
     lastAttemptAt := nowMs;
     blockedUntil := None |}.

(** What every row of a reachable table satisfies at clock reading [nowMs]. *)
Definition row_ok (nowMs : Z) (r : LoginRateLimit) : Prop :=
  1 <= count r <= MAX_ATTEMPTS CONFIG /\
  firstAttemptAt r <= lastAttemptAt r <= nowMs /\
  match blockedUntil r with
  | None => count r < MAX_ATTEMPTS CONFIG
  | Some blockedUntilMs =>
      blockedUntilMs = lastAttemptAt r + BLOCK_DURATION_MS CONFIG /\
      count r = MAX_ATTEMPTS CONFIG /\
      lastAttemptAt r <= firstAttemptAt r + WINDOW_MS CONFIG
  end.

(** A header is populated when [get] returns a non-empty string. *)
Definition populated (headers : Headers) (name : string) : Prop :=
  exists v, get headers name = Some v /\ v <> "".

Definition allWhiteSpace (s : string) : Prop :=
  Forall (fun c => isWhiteSpace c = true) (list_ascii_of_string s).

Definition noComma (s : string) : Prop :=
  Forall (fun c => c <> ","%char) (list_ascii_of_string s).

Definition firstChar (s : string) : option ascii :=
  match s with
  | EmptyString => None
  | String c _ => Some c
  end.

Fixpoint lastChar (s : string) : option ascii :=
  match s with
  | EmptyString => None
  | String c rest =>
      match lastChar rest with
      | Some d => Some d
      | None => Some c
      end
  end.

(** Neither end of the string is white space. *)
Definition trimmed (s : string) : Prop :=
  (forall c, firstChar s = Some c -> isWhiteSpace c = false) /\
  (forall c, lastChar s = Some c -> isWhiteSpace c = false).

(** ** Sample data *)

Definition sampleClient : string := "203.0.113.7".

(** A client one failure away from the threshold. *)
Definition sampleFourFailures : Table :=
  {[ sampleClient := {| count := 4;
                        firstAttemptAt := 0;
                        lastAttemptAt := 3000;
                        blockedUntil := None |} ]}.

(** The table after five failures at seconds 0 to 4. *)
Definition sampleLocked : Table :=
  tableAfter (RecordFailure sampleClient) 4000
    (tableAfter (RecordFailure sampleClient) 3000
      (tableAfter (RecordFailure sampleClient) 2000
        (tableAfter (RecordFailure sampleClient) 1000
          (tableAfter (RecordFailure sampleClient) 0 ∅)))).

Definition sampleLockedRow : LoginRateLimit :=
  {| count := 5;
     firstAttemptAt := 0;
     lastAttemptAt := 4000;
     blockedUntil := Some 1804000 |}.

Definition sampleForwarded : Headers :=
  <["x-forwarded-for" := "1.2.3.4, 5.6.6.7"]> (<["x-real-ip" := "9.9.9.9"]> ∅).

Definition sampleEdge : Headers :=
  <["cf-connecting-ip" := "8.8.8.8"]> sampleForwarded.

Definition sampleRealOnly : Headers :=
  <["x-forwarded-for" := ""]> (<["x-real-ip" := "9.9.9.9"]> ∅).

Definition sampleEmptyFirst : Headers :=
  <["x-forwarded-for" := ", 5.6.7.8"]> (<["x-real-ip" := "9.9.9.9"]> ∅).

(** A client in its third failure of a window. *)
Definition sampleTwoFailures : Table :=
  {[ sampleClient := {| count := 2;
                        firstAttemptAt := 0;
                        lastAttemptAt := 1000;
                        blockedUntil := None |} ]}.

(** * Properties *)

Ltac config :=
  cbn [CONFIG WINDOW_MS MAX_ATTEMPTS BLOCK_DURATION_MS] in *.

Ltac run_db :=
  unfold transaction, bind, ret, findFirst, selectForUpdate, insertValues,
    updateSet, deleteWhere in *.

(** ** Rounding *)

Lemma ceilDiv_bounds x d :
  0 < d -> d * (ceilDiv x d - 1) < x <= d * ceilDiv x d.
Proof.
  intros Hd. unfold ceilDiv.
  pose proof (Z.div_mod (- x) d ltac:(lia)) as Hdm.
  pose proof (Z.mod_pos_bound (- x) d Hd) as Hb.
  nia.
Qed.

Lemma secondsUntil_rounds_up targetMs nowMs :
  nowMs <= targetMs ->
  1000 * (secondsUntil targetMs nowMs - 1) < targetMs - nowMs
    <= 1000 * secondsUntil targetMs nowMs.
Proof.
  intros Hle. unfold secondsUntil.
  pose proof (ceilDiv_bounds (targetMs - nowMs) 1000 ltac:(lia)) as Hc.
  lia.
Qed.

Lemma secondsUntil_past targetMs nowMs :
  targetMs <= nowMs -> secondsUntil targetMs nowMs = 0.
Proof.
  intros Hle. unfold secondsUntil.
  pose proof (ceilDiv_bounds (targetMs - nowMs) 1000 ltac:(lia)) as Hc.
  lia.
Qed.

Lemma secondsUntil_shift nowMs k :
  0 <= k -> secondsUntil (nowMs + 1000 * k) nowMs = k.
Proof.
  intros Hk.
  pose proof (secondsUntil_rounds_up (nowMs + 1000 * k) nowMs ltac:(lia)).
  lia.
Qed.

(** ** The branches of [checkRateLimit] *)

Lemma checkRateLimit_reads_only identifier nowMs (t : Table) :
  (checkRateLimit identifier nowMs t).2 = t.
Proof.
  unfold checkRateLimit. run_db.
  destruct (t !! identifier) as [r|]; [|done].
  destruct (blockedUntil r); repeat case_decide; done.
Qed.

Lemma checkRateLimit_absent identifier nowMs (t : Table) :
  t !! identifier = None ->
  (checkRateLimit identifier nowMs t).1 =
    {| success := true;
       remaining := MAX_ATTEMPTS CONFIG;
       resetIn := secondsUntil (nowMs + WINDOW_MS CONFIG) nowMs;
       blocked := false;
       message := None |}.
Proof. intros Ht. unfold checkRateLimit. run_db. by rewrite Ht. Qed.

Lemma checkRateLimit_blocked identifier nowMs (t : Table) r blockedUntilMs :
  t !! identifier = Some r ->
  blockedUntil r = Some blockedUntilMs ->
  blockedUntilMs > nowMs ->
  (checkRateLimit identifier nowMs t).1 =
    {| success := false;
       remaining := 0;
       resetIn := secondsUntil blockedUntilMs nowMs;
       blocked := true;
       message := Some (msgBlockedRetry (secondsUntil blockedUntilMs nowMs)) |}.
Proof.
  intros Ht Hb Hgt. unfold checkRateLimit. run_db.
  rewrite Ht, Hb. by case_decide.
Qed.

Lemma checkRateLimit_in_window identifier nowMs (t : Table) r :
  t !! identifier = Some r ->
  noActiveBlock r nowMs ->
  nowMs <= firstAttemptAt r + WINDOW_MS CONFIG ->
  (checkRateLimit identifier nowMs t).1 =
    if decide (MAX_ATTEMPTS CONFIG - count r <= 0) then
      {| success := false;
         remaining := 0;
         resetIn := secondsUntil (firstAttemptAt r + WINDOW_MS CONFIG) nowMs;
         blocked := false;
         message := Some msgWindowExhausted |}
    else
      {| success := true;
         remaining := MAX_ATTEMPTS CONFIG - count r;
         resetIn := secondsUntil (firstAttemptAt r + WINDOW_MS CONFIG) nowMs;
         blocked := false;
         message := None |}.
Proof.
  intros Ht Hnb Hw. unfold checkRateLimit, noActiveBlock in *. run_db.
  rewrite Ht. destruct (blockedUntil r); repeat case_decide; done || lia.
Qed.

(** ** The branches of [recordFailedAttempt] *)

Lemma alter_present (f : LoginRateLimit -> LoginRateLimit) identifier
    (t : Table) r :
  t !! identifier = Some r ->
  alter f identifier t = <[identifier := f r]> t.
Proof.
  intros Ht. apply map_eq. intros j. rewrite lookup_alter, lookup_insert.
  case_decide; subst; [by rewrite Ht | done].
Qed.

Ltac record_branch Ht :=
  unfold recordFailedAttempt, noActiveBlock in *; run_db;
  rewrite Ht; cbn; config;
  destruct (blockedUntil _) eqn:?;
  repeat first [case_decide | case_bool_decide];
  try lia; try congruence; cbn;
  rewrite ?(alter_present _ _ _ _ Ht); try done; try congruence.

Lemma recordFailedAttempt_absent identifier nowMs (t : Table) :
  t !! identifier = None ->
  recordFailedAttempt identifier nowMs t =
    ({| success := true;
        remaining := MAX_ATTEMPTS CONFIG - 1;
        resetIn := secondsUntil (nowMs + WINDOW_MS CONFIG) nowMs;
        blocked := false;
        message := None |},
     <[identifier := freshRow nowMs]> t).
Proof. intros Ht. unfold recordFailedAttempt. run_db. by rewrite Ht. Qed.

Lemma recordFailedAttempt_blocked identifier nowMs (t : Table) r blockedUntilMs :
  t !! identifier = Some r ->
  blockedUntil r = Some blockedUntilMs ->
  blockedUntilMs > nowMs ->
  recordFailedAttempt identifier nowMs t =
    ({| success := false;
        remaining := 0;
        resetIn := secondsUntil blockedUntilMs nowMs;
        blocked := true;
        message := Some (msgBlockedRetry (secondsUntil blockedUntilMs nowMs)) |},
     t).
Proof.
  intros Ht Hb Hgt. unfold recordFailedAttempt. run_db.
  rewrite Ht. cbn. rewrite Hb. by case_decide.
Qed.

Lemma recordFailedAttempt_window_expired identifier nowMs (t : Table) r :
  t !! identifier = Some r ->
  noActiveBlock r nowMs ->
  nowMs > firstAttemptAt r + WINDOW_MS CONFIG ->
  recordFailedAttempt identifier nowMs t =
    ({| success := true;
        remaining := MAX_ATTEMPTS CONFIG - 1;
        resetIn := secondsUntil (nowMs + WINDOW_MS CONFIG) nowMs;
        blocked := false;
        message := None |},
     <[identifier := freshRow nowMs]> t).
Proof. intros Ht Hnb Hw. record_branch Ht. Qed.

Lemma recordFailedAttempt_locks identifier nowMs (t : Table) r :
  t !! identifier = Some r ->
  noActiveBlock r nowMs ->
  nowMs <= firstAttemptAt r + WINDOW_MS CONFIG ->
  count r + 1 >= MAX_ATTEMPTS CONFIG ->
  recordFailedAttempt identifier nowMs t =
    (let resetIn := secondsUntil (nowMs + BLOCK_DURATION_MS CONFIG) nowMs in
     {| success := false;
        remaining := 0;
        resetIn := resetIn;
        blocked := true;
        message := Some (msgLocked resetIn) |},
     <[identifier := {| count := count r + 1;
                        firstAttemptAt := firstAttemptAt r;
                        lastAttemptAt := nowMs;
                        blockedUntil :=
                          Some (nowMs + BLOCK_DURATION_MS CONFIG) |}]> t).
Proof. intros Ht Hnb Hw Hc. record_branch Ht. Qed.

Lemma recordFailedAttempt_counts identifier nowMs (t : Table) r :
  t !! identifier = Some r ->
  noActiveBlock r nowMs ->
  nowMs <= firstAttemptAt r + WINDOW_MS CONFIG ->
  count r + 1 < MAX_ATTEMPTS CONFIG ->
  recordFailedAttempt identifier nowMs t =
    (let remaining := MAX_ATTEMPTS CONFIG - (count r + 1) in
     {| success := true;
        remaining := remaining;
        resetIn := secondsUntil (firstAttemptAt r + WINDOW_MS CONFIG) nowMs;
        blocked := false;
        message := if decide (remaining <= 2)
                   then Some (msgRemaining remaining) else None |},
     <[identifier := {| count := count r + 1;
                        firstAttemptAt := firstAttemptAt r;
                        lastAttemptAt := nowMs;
                        blockedUntil := blockedUntil r |}]> t).
Proof. intros Ht Hnb Hw Hc. record_branch Ht. Qed.

(** ** Five failures in one window *)

Lemma recordFailures_cons identifier nowMs later (t : Table) :
  recordFailures identifier (nowMs :: later) t =
    let '(r, t1) := recordFailedAttempt identifier nowMs t in
    let '(rs, t2) := recordFailures identifier later t1 in
    (r :: rs, t2).
Proof.
  cbn [recordFailures]. unfold bind, ret.
  destruct (recordFailedAttempt identifier nowMs t) as [r t1].
  by destruct (recordFailures identifier later t1).
Qed.

Ltac arith := unfold freshRow in *; cbn in *; lia.

Lemma five_failures identifier (t : Table) t1 t2 t3 t4 t5 :
  t !! identifier = None ->
  t2 <= t1 + WINDOW_MS CONFIG ->
  t3 <= t1 + WINDOW_MS CONFIG ->
  t4 <= t1 + WINDOW_MS CONFIG ->
  t5 <= t1 + WINDOW_MS CONFIG ->
  recordFailures identifier [t1; t2; t3; t4; t5] t =
    ([ {| success := true; remaining := 4;
          resetIn := 900;
          blocked := false; message := None |};
       {| success := true; remaining := 3;
          resetIn := secondsUntil (t1 + WINDOW_MS CONFIG) t2;
          blocked := false; message := None |};
       {| success := true; remaining := 2;
          resetIn := secondsUntil (t1 + WINDOW_MS CONFIG) t3;
          blocked := false; message := Some (msgRemaining 2) |};
       {| success := true; remaining := 1;
          resetIn := secondsUntil (t1 + WINDOW_MS CONFIG) t4;
          blocked := false; message := Some (msgRemaining 1) |};
       {| success := false; remaining := 0;
          resetIn := 1800;
          blocked := true; message := Some (msgLocked 1800) |} ],
     <[identifier := {| count := 5;
                        firstAttemptAt := t1;
                        lastAttemptAt := t5;
                        blockedUntil := Some (t5 + BLOCK_DURATION_MS CONFIG) |}]> t).
Proof.
  intros Ht H2 H3 H4 H5.
  rewrite recordFailures_cons, (recordFailedAttempt_absent _ _ _ Ht).
  rewrite recordFailures_cons.
  erewrite recordFailedAttempt_counts;
    [ | apply lookup_insert_eq | exact I | arith | arith ].
  rewrite insert_insert_eq.
  rewrite recordFailures_cons.
  erewrite recordFailedAttempt_counts;
    [ | apply lookup_insert_eq | exact I | arith | arith ].
  rewrite insert_insert_eq.
  rewrite recordFailures_cons.
  erewrite recordFailedAttempt_counts;
    [ | apply lookup_insert_eq | exact I | arith | arith ].
  rewrite insert_insert_eq.
  rewrite recordFailures_cons.
  erewrite recordFailedAttempt_locks;
    [ | apply lookup_insert_eq | exact I | arith | arith ].
  rewrite insert_insert_eq.
  cbn -[secondsUntil msgRemaining msgLocked Z.add Z.mul].
  replace (secondsUntil (t1 + 15 * 60 * 1000) t1) with 900
    by (symmetry; apply (secondsUntil_shift t1 900); lia).
  replace (secondsUntil (t5 + 30 * 60 * 1000) t5) with 1800
    by (symmetry; apply (secondsUntil_shift t5 1800); lia).
  reflexivity.
Qed.

(** ** [clearRateLimit] *)

Lemma clearRateLimit_table identifier (t : Table) :
  (clearRateLimit identifier t).2 = delete identifier t.
Proof. reflexivity. Qed.

(** ** The invariant of reachable tables *)

Lemma row_ok_later lastMs nowMs r :
  row_ok lastMs r -> lastMs <= nowMs -> row_ok nowMs r.
Proof.
  unfold row_ok. intros (Hc & Ht & Hb) Hle. repeat split; try lia. exact Hb.
Qed.

Lemma row_ok_freshRow nowMs : row_ok nowMs (freshRow nowMs).
Proof. unfold row_ok, freshRow. cbn. lia. Qed.

(** Under the invariant a block that has run out lies past the window. *)
Lemma row_ok_expired_block lastMs nowMs r blockedUntilMs :
  row_ok lastMs r ->
  blockedUntil r = Some blockedUntilMs ->
  blockedUntilMs <= nowMs ->
  nowMs > firstAttemptAt r + WINDOW_MS CONFIG.
Proof.
  unfold row_ok. intros (Hc & Ht & Hb) Hsome Hle.
  rewrite Hsome in Hb. config. lia.
Qed.

Section Preservation.

Variables (lastMs nowMs : Z) (t : Table).
Hypothesis rows_ok : forall j r, t !! j = Some r -> row_ok lastMs r.
Hypothesis clock : lastMs <= nowMs.

Lemma insert_rows_ok identifier row j r :
  row_ok nowMs row ->
  <[identifier := row]> t !! j = Some r -> row_ok nowMs r.
Proof.
  intros Hrow. rewrite lookup_insert. case_decide.
  - intros [= <-]. exact Hrow.
  - intros Hj. eapply row_ok_later; eauto.
Qed.

Lemma recordFailedAttempt_rows_ok identifier j r :
  (recordFailedAttempt identifier nowMs t).2 !! j = Some r ->
  row_ok nowMs r.
Proof.
  destruct (t !! identifier) as [r0|] eqn:Ht.
  2:{ rewrite (recordFailedAttempt_absent _ _ _ Ht). cbn.
      apply insert_rows_ok, row_ok_freshRow. }
  pose proof (rows_ok _ _ Ht) as Hr0.
  assert (noActiveBlock r0 nowMs \/
          exists b, blockedUntil r0 = Some b /\ b > nowMs) as [Hnb | (b & Hb & Hgt)].
  { unfold noActiveBlock. destruct (blockedUntil r0) as [b|]; [|by left].
    destruct (decide (b > nowMs)); [right; eauto | left; lia]. }
  2:{ rewrite (recordFailedAttempt_blocked _ _ _ _ _ Ht Hb Hgt). cbn.
      intros Hj. eapply row_ok_later; eauto. }
  destruct (decide (nowMs > firstAttemptAt r0 + WINDOW_MS CONFIG)) as [Hw | Hw].
  { rewrite (recordFailedAttempt_window_expired _ _ _ _ Ht Hnb Hw). cbn.
    apply insert_rows_ok, row_ok_freshRow. }
  assert (blockedUntil r0 = None) as Hnone.
  { destruct (blockedUntil r0) as [b|] eqn:Hb; [|done].
    pose proof (row_ok_expired_block _ nowMs _ _ Hr0 Hb) as Hexp.
    unfold noActiveBlock in Hnb. rewrite Hb in Hnb. lia. }
  destruct Hr0 as (Hc & Htimes & Hblk). rewrite Hnone in Hblk.
  destruct (decide (count r0 + 1 >= MAX_ATTEMPTS CONFIG)) as [Hmax | Hmax].
  - rewrite (recordFailedAttempt_locks _ _ _ _ Ht Hnb ltac:(lia) Hmax). cbn.
    apply insert_rows_ok. unfold row_ok. cbn in *. lia.
  - rewrite (recordFailedAttempt_counts _ _ _ _ Ht Hnb ltac:(lia) ltac:(lia)).
    cbn. apply insert_rows_ok. unfold row_ok. cbn in *.
    rewrite Hnone. lia.
Qed.

Lemma tableAfter_rows_ok c j r :
  tableAfter c nowMs t !! j = Some r -> row_ok nowMs r.
Proof.
  unfold tableAfter. destruct c as [identifier | identifier | identifier]; cbn.
  - unfold bind, ret.
    pose proof (checkRateLimit_reads_only identifier nowMs t) as Hro.
    destruct (checkRateLimit identifier nowMs t) as [res t']. cbn in *. subst t'.
    intros Hj. eapply row_ok_later; eauto.
  - unfold bind, ret.
    pose proof (recordFailedAttempt_rows_ok identifier j r) as Hrf.
    destruct (recordFailedAttempt identifier nowMs t) as [res t']. exact Hrf.
  - unfold clearRateLimit. run_db. cbn.
    rewrite lookup_delete. case_decide; [done|].
    intros Hj. eapply row_ok_later; eauto.
Qed.

End Preservation.

Lemma reachable_rows_ok nowMs (t : Table) :
  reachable nowMs t -> forall j r, t !! j = Some r -> row_ok nowMs r.
Proof.
  induction 1 as [nowMs | lastMs nowMs c t Hreach IH Hle]; intros j r.
  - by rewrite lookup_empty.
  - eapply tableAfter_rows_ok; eauto.
Qed.

Lemma sampleLocked_reachable : reachable 4000 sampleLocked.
Proof.
  unfold sampleLocked.
  apply (reachable_call 3000 4000); [|lia].
  apply (reachable_call 2000 3000); [|lia].
  apply (reachable_call 1000 2000); [|lia].
  apply (reachable_call 0 1000); [|lia].
  apply (reachable_call 0 0); [|lia].
  apply reachable_empty.
Defined.

Lemma sampleLocked_lookup : sampleLocked !! sampleClient = Some sampleLockedRow.
Proof. vm_compute. reflexivity. Defined.

(** ** Strings: [split] and [trim] *)

Lemma split_nonempty sep s : exists piece pieces, split sep s = piece :: pieces.
Proof.
  destruct s as [|c rest]; cbn; [by eauto|].
  destruct (Ascii.eqb c sep); [by eauto|].
  destruct (split sep rest); eauto.
Qed.

(** The first piece is the text before the first separator. *)
Lemma split_first sep s piece :
  split sep s !! 0%nat = Some piece ->
  exists tail,
    s = piece +:+ tail /\
    Forall (fun c => c <> sep) (list_ascii_of_string piece) /\
    (tail = "" \/ exists more, tail = String sep more).
Proof.
  revert piece. induction s as [|c rest IH]; intros piece; cbn.
  - intros [= <-]. exists "". by repeat split; [constructor | left].
  - destruct (Ascii.eqb_spec c sep) as [-> | Hne]; cbn.
    + intros [= <-]. exists (String sep rest).
      repeat split; [constructor | right; eauto].
    + destruct (split_nonempty sep rest) as (p & ps & Hsplit).
      rewrite Hsplit in IH |- *. cbn. intros [= <-].
      destruct (IH p eq_refl) as (tail & -> & Hclean & Htail).
      exists tail. repeat split; [by constructor | exact Htail].
Qed.

Lemma trimStart_spec s :
  exists pre,
    s = pre +:+ trimStart s /\ allWhiteSpace pre /\
    (forall c, firstChar (trimStart s) = Some c -> isWhiteSpace c = false).
Proof.
  induction s as [|c rest (pre & Heq & Hpre & Hfirst)]; cbn.
  - exists "". repeat split; [constructor | discriminate].
  - destruct (isWhiteSpace c) eqn:Hc.
    + exists (String c pre).
      repeat split; [ | by constructor | exact Hfirst].
      change (String c rest = String c (pre +:+ trimStart rest)). by f_equal.
    + exists "". repeat split; [constructor|].
      cbn. by intros d [= <-].
Qed.

Lemma trimEnd_spec s :
  exists post,
    s = trimEnd s +:+ post /\ allWhiteSpace post /\
    (forall c, lastChar (trimEnd s) = Some c -> isWhiteSpace c = false).
Proof.
  induction s as [|c rest (post & Heq & Hpost & Hlast)]; cbn.
  - exists "". repeat split; [constructor | discriminate].
  - destruct (trimEnd rest) as [|k kept] eqn:Hkept.
    + cbn in Heq. subst rest. destruct (isWhiteSpace c) eqn:Hc.
      * exists (String c post). repeat split; [by constructor | discriminate].
      * exists post. repeat split; [exact Hpost|].
        cbn. by intros d [= <-].
    + exists post. cbn. rewrite Heq at 1. repeat split; [exact Hpost|].
      intros d. cbn in Hlast |- *.
      destruct (lastChar kept); [apply Hlast | intros [= <-]; by apply Hlast].
Qed.

Lemma trimEnd_firstChar s c :
  firstChar (trimEnd s) = Some c -> firstChar s = Some c.
Proof.
  destruct s as [|d rest]; cbn; [done|].
  destruct (trimEnd rest); [destruct (isWhiteSpace d)|]; cbn; done.
Qed.

(** [trim] strips white space, and only white space, from both ends. *)
Lemma trim_spec s :
  exists pre post,
    s = pre +:+ trim s +:+ post /\
    allWhiteSpace pre /\ allWhiteSpace post /\ trimmed (trim s).
Proof.
  unfold trim.
  destruct (trimStart_spec s) as (pre & Hs & Hpre & Hfirst).
  destruct (trimEnd_spec (trimStart s)) as (post & He & Hpost & Hlast).
  exists pre, post. rewrite <- He.
  repeat split; try done.
  intros c Hc. by apply Hfirst, trimEnd_firstChar.
Qed.

Lemma truthy_populated (headers : Headers) name :
  truthy (get headers name) = true <-> populated headers name.
Proof.
  unfold populated. split.
  - destruct (get headers name) as [[|c v]|]; cbn; try discriminate.
    intros _. by eexists.
  - intros (v & -> & Hv). by destruct v.
Qed.

Lemma truthy_unpopulated (headers : Headers) name :
  ~ populated headers name -> truthy (get headers name) = false.
Proof.
  intros Hno. destruct (truthy (get headers name)) eqn:Htruthy; [|done].
  by apply truthy_populated in Htruthy.
Qed.

Lemma truthy_value (headers : Headers) name v :
  get headers name = Some v -> v <> "" -> truthy (get headers name) = true.
Proof. intros Hget Hv. apply truthy_populated. by exists v. Qed.

(** [getClientIP] always returns: [split] yields at least one piece. *)
Lemma getClientIP_returns (headers : Headers) :
  exists ip, getClientIP headers = Some ip.
Proof.
  unfold getClientIP.
  destruct (truthy (get headers "cf-connecting-ip")) eqn:Hcf.
  { apply truthy_populated in Hcf as (v & -> & _). eauto. }
  destruct (truthy (get headers "x-forwarded-for")) eqn:Hxff.
  { apply truthy_populated in Hxff as (v & -> & _).
    destruct (split_nonempty "," v) as (p & ps & ->). cbn. eauto. }
  destruct (truthy (get headers "x-real-ip")) eqn:Hreal; [|eauto].
  apply truthy_populated in Hreal as (v & -> & _). eauto.
Qed.

(** ** The clock hypothesis of [reachable]

    The reset branch of [recordFailedAttempt] compares the clock with the
    window only.  If the clock steps back by more than the window between
    two calls, a block can run out while the window it was set in is still
    open, and the next failure counts on from [MAX_ATTEMPTS]. *)
Remark clock_rollback_exceeds_max :
  let t := (recordFailures sampleClient
              [2000000; 0; 0; 0; 0; 1800000] ∅).2 in
  count <$> t !! sampleClient = Some 6.
Proof. vm_compute. reflexivity. Qed.

(** * Specified behaviour *)

(** C1. For an existing record whose window is still active and which has
    no active block, a [recordFailedAttempt] that brings the count to
    [MAX_ATTEMPTS] returns [success = false], [blocked = true] and stores
    [blockedUntil = nowMs + BLOCK_DURATION_MS]; and [MAX_ATTEMPTS] failures
    in a row within one window, on an identifier without a record, report
    [blocked = true] on the last call and on no earlier one. *)
Theorem recordFailedAttempt_blocks_at_max :
  (forall identifier nowMs (t : Table) r,
      t !! identifier = Some r ->
      nowMs <= firstAttemptAt r + WINDOW_MS CONFIG ->
      noActiveBlock r nowMs ->
      count r + 1 >= MAX_ATTEMPTS CONFIG ->
      let out := recordFailedAttempt identifier nowMs t in
      success out.1 = false /\ blocked out.1 = true /\
      exists r', out.2 !! identifier = Some r' /\
        count r' = count r + 1 /\
        blockedUntil r' = Some (nowMs + BLOCK_DURATION_MS CONFIG)) /\
  (forall identifier (t : Table) times firstMs finalMs,
      t !! identifier = None ->
      length times = Z.to_nat (MAX_ATTEMPTS CONFIG) ->
      head times = Some firstMs ->
      last times = Some finalMs ->
      Forall (fun nowMs => nowMs <= firstMs + WINDOW_MS CONFIG) times ->
      let out := recordFailures identifier times t in
      blocked <$> out.1 = [false; false; false; false; true] /\
      exists r', out.2 !! identifier = Some r' /\
        blockedUntil r' = Some (finalMs + BLOCK_DURATION_MS CONFIG)).
Proof.
  split.
  - intros identifier nowMs t r Ht Hw Hnb Hc out. subst out.
    rewrite (recordFailedAttempt_locks _ _ _ _ Ht Hnb Hw Hc). cbn.
    repeat split. eexists. split; [apply lookup_insert_eq|]. by cbn.
  - intros identifier t times firstMs finalMs Ht Hlen Hhead Hlast Hall out.
    subst out.
    destruct times as [|t1 [|t2 [|t3 [|t4 [|t5 [|t6 rest]]]]]];
      try discriminate Hlen.
    injection Hhead as <-. injection Hlast as <-.
    repeat match goal with
           | H : Forall _ (_ :: _) |- _ =>
               apply Forall_cons in H; destruct H as [? H]
           end.
    rewrite (five_failures identifier t t1 t2 t3 t4 t5) by assumption.
    cbn. split; [reflexivity|].
    eexists. split; [apply lookup_insert_eq|]. by cbn.
Qed.

Lemma recordFailedAttempt_blocks_at_max_witness :
  (let out := recordFailedAttempt sampleClient 4000 sampleFourFailures in
   success out.1 = false /\ blocked out.1 = true /\
   exists r', out.2 !! sampleClient = Some r' /\
     count r' = 5 /\ blockedUntil r' = Some 1804000) /\
  (let out := recordFailures sampleClient [0; 1000; 2000; 3000; 4000] ∅ in
   blocked <$> out.1 = [false; false; false; false; true] /\
   exists r', out.2 !! sampleClient = Some r' /\
     blockedUntil r' = Some 1804000).
Proof.
  split.
  - apply (proj1 recordFailedAttempt_blocks_at_max sampleClient 4000
             sampleFourFailures
             {| count := 4; firstAttemptAt := 0; lastAttemptAt := 3000;
                blockedUntil := None |}).
    + reflexivity.
    + cbn. lia.
    + exact I.
    + cbn. lia.
  - apply (proj2 recordFailedAttempt_blocks_at_max sampleClient ∅
             [0; 1000; 2000; 3000; 4000] 0 4000).
    + reflexivity.
    + reflexivity.
    + reflexivity.
    + reflexivity.
    + repeat constructor; cbn; lia.
Defined.

(** C2. While a record's [blockedUntil] is set and strictly later than the
    clock, [checkRateLimit] and [recordFailedAttempt] both return
    [success = false], [blocked = true], [remaining = 0] and [resetIn] equal
    to the time left until [blockedUntil] in seconds, rounded up; and
    [recordFailedAttempt] writes nothing: the table, and so the record with
    all four columns, stays as it was. *)
Theorem active_block_denies_without_write
    identifier nowMs (t : Table) r blockedUntilMs :
  t !! identifier = Some r ->
  blockedUntil r = Some blockedUntilMs ->
  blockedUntilMs > nowMs ->
  let seconds := secondsUntil blockedUntilMs nowMs in
  let checked := (checkRateLimit identifier nowMs t).1 in
  let recorded := recordFailedAttempt identifier nowMs t in
  1000 * (seconds - 1) < blockedUntilMs - nowMs <= 1000 * seconds /\
  (success checked = false /\ blocked checked = true /\
   remaining checked = 0 /\ resetIn checked = seconds) /\
  (success recorded.1 = false /\ blocked recorded.1 = true /\
   remaining recorded.1 = 0 /\ resetIn recorded.1 = seconds) /\
  recorded.2 = t /\
  recorded.2 !! identifier = Some r.
Proof.
  intros Ht Hb Hgt seconds checked recorded. subst seconds checked recorded.
  rewrite (checkRateLimit_blocked _ _ _ _ _ Ht Hb Hgt).
  rewrite (recordFailedAttempt_blocked _ _ _ _ _ Ht Hb Hgt). cbn.
  split; [apply secondsUntil_rounds_up; lia|]. by repeat split.
Qed.

Lemma active_block_denies_without_write_witness :
  let checked := (checkRateLimit sampleClient 5500 sampleLocked).1 in
  let recorded := recordFailedAttempt sampleClient 5500 sampleLocked in
  1000 * (1799 - 1) < 1804000 - 5500 <= 1000 * 1799 /\
  (success checked = false /\ blocked checked = true /\
   remaining checked = 0 /\ resetIn checked = 1799) /\
  (success recorded.1 = false /\ blocked recorded.1 = true /\
   remaining recorded.1 = 0 /\ resetIn recorded.1 = 1799) /\
  recorded.2 = sampleLocked /\
  recorded.2 !! sampleClient = Some sampleLockedRow.
Proof.
  apply (active_block_denies_without_write sampleClient 5500 sampleLocked
           sampleLockedRow 1804000).
  - exact sampleLocked_lookup.
  - reflexivity.
  - lia.
Defined.



(** Under a clock that does not run backwards the count stays in range:
    in every table reached from the empty one by [checkRateLimit],
    [recordFailedAttempt] and [clearRateLimit] calls read in clock order,
    every record has [1 <= count <= MAX_ATTEMPTS], whether its window has
    expired or not. *)
Theorem reachable_count_in_range nowMs (t : Table) identifier r :
  reachable nowMs t ->
  t !! identifier = Some r ->
  1 <= count r <= MAX_ATTEMPTS CONFIG.
Proof.
  intros Hreach Ht.
  by destruct (reachable_rows_ok _ _ Hreach _ _ Ht) as [Hc _].
Qed.

Lemma reachable_count_in_range_witness :
  1 <= count sampleLockedRow <= MAX_ATTEMPTS CONFIG.
Proof.
  apply (reachable_count_in_range 4000 sampleLocked sampleClient sampleLockedRow).
  - exact sampleLocked_reachable.
  - exact sampleLocked_lookup.
Defined.

(** C4. The count does not stay within [1, MAX_ATTEMPTS] for every
    sequence of calls.  The comment above the reset says that an expired
    block or an expired window resets the window, but [shouldResetWindow]
    tests the window only.  A first failure at clock reading 2000000
    followed by four failures at reading 0 leaves a row with [count = 5]
    and [blockedUntil = 1800000] whose window is open until 2900000; a
    sixth failure at reading 1800000 finds the block expired and the window
    open, counts on, and stores [count = 6] in an unexpired window. *)
Theorem count_exceeds_max_after_clock_rollback :
  let earlier := [ (2000000, RecordFailure sampleClient);
                   (0, RecordFailure sampleClient);
                   (0, RecordFailure sampleClient);
                   (0, RecordFailure sampleClient);
                   (0, RecordFailure sampleClient) ] in
  let before := runCalls earlier ∅ in
  let after := runCalls (earlier ++ [(1800000, RecordFailure sampleClient)]) ∅ in
  before !! sampleClient =
    Some {| count := 5; firstAttemptAt := 2000000; lastAttemptAt := 0;
            blockedUntil := Some 1800000 |} /\
  after = tableAfter (RecordFailure sampleClient) 1800000 before /\
  after !! sampleClient =
    Some {| count := 6; firstAttemptAt := 2000000; lastAttemptAt := 1800000;
            blockedUntil := Some 3600000 |} /\
  1800000 <= 2000000 + WINDOW_MS CONFIG /\
  ~ (forall calls identifier r,
       runCalls calls ∅ !! identifier = Some r ->
       1 <= count r <= MAX_ATTEMPTS CONFIG).
Proof.
  intros earlier before after.
  assert (after !! sampleClient =
            Some {| count := 6; firstAttemptAt := 2000000;
                    lastAttemptAt := 1800000;
                    blockedUntil := Some 3600000 |}) as Hafter
    by (vm_compute; reflexivity).
  split; [vm_compute; reflexivity|].
  split; [reflexivity|].
  split; [exact Hafter|].
  split; [cbn; lia|].
  intros Hbound. specialize (Hbound _ _ _ Hafter). cbn in Hbound. lia.
Qed.

(** C5. For an identifier without a record [checkRateLimit] returns
    [success = true], [remaining = MAX_ATTEMPTS], [blocked = false] and
    [resetIn] equal to [WINDOW_MS] in whole seconds (900); and
    [checkRateLimit] leaves the table as it found it, whatever it holds. *)
Theorem checkRateLimit_unknown_identifier :
  (forall identifier nowMs (t : Table),
      t !! identifier = None ->
      let res := (checkRateLimit identifier nowMs t).1 in
      success res = true /\
      remaining res = MAX_ATTEMPTS CONFIG /\
      blocked res = false /\
      resetIn res * 1000 = WINDOW_MS CONFIG /\
      message res = None) /\
  (forall identifier nowMs (t : Table),
      (checkRateLimit identifier nowMs t).2 = t).
Proof.
  split.
  - intros identifier nowMs t Ht res. subst res.
    rewrite (checkRateLimit_absent _ _ _ Ht). cbn -[secondsUntil Z.mul].
    replace (15 * 60 * 1000) with (1000 * 900) by lia.
    rewrite (secondsUntil_shift nowMs 900) by lia. by repeat split.
  - apply checkRateLimit_reads_only.
Qed.

Lemma checkRateLimit_unknown_identifier_witness :
  (let res := (checkRateLimit "198.51.100.1" 5500 sampleLocked).1 in
   success res = true /\
   remaining res = 5 /\
   blocked res = false /\
   resetIn res * 1000 = 900000 /\
   message res = None) /\
  (checkRateLimit sampleClient 5500 sampleLocked).2 = sampleLocked.
Proof.
  split.
  - apply (proj1 checkRateLimit_unknown_identifier "198.51.100.1" 5500
             sampleLocked).
    vm_compute. reflexivity.
  - apply (proj2 checkRateLimit_unknown_identifier).
Defined.

(** C6. For a record with no active block and an unexpired window,
    [checkRateLimit] works from [MAX_ATTEMPTS - count]: when that is at most
    0 it returns [success = false] with [blocked = false], otherwise
    [success = true] with that number as [remaining]; in both cases
    [resetIn] is the time left until the end of the window in seconds,
    rounded up. *)
Theorem checkRateLimit_window_remaining identifier nowMs (t : Table) r :
  t !! identifier = Some r ->
  noActiveBlock r nowMs ->
  nowMs <= firstAttemptAt r + WINDOW_MS CONFIG ->
  let windowEndsMs := firstAttemptAt r + WINDOW_MS CONFIG in
  let left := MAX_ATTEMPTS CONFIG - count r in
  let res := (checkRateLimit identifier nowMs t).1 in
  resetIn res = secondsUntil windowEndsMs nowMs /\
  1000 * (resetIn res - 1) < windowEndsMs - nowMs <= 1000 * resetIn res /\
  blocked res = false /\
  (left <= 0 -> success res = false /\ remaining res = 0) /\
  (left > 0 -> success res = true /\ remaining res = left).
Proof.
  intros Ht Hnb Hw windowEndsMs left res. subst windowEndsMs left res.
  rewrite (checkRateLimit_in_window _ _ _ _ Ht Hnb Hw).
  pose proof (secondsUntil_rounds_up _ _ Hw) as Hup.
  case_decide; cbn [success remaining resetIn blocked message];
    repeat split; try done; lia.
Qed.

Lemma checkRateLimit_window_remaining_witness :
  let res := (checkRateLimit sampleClient 4000 sampleFourFailures).1 in
  resetIn res = secondsUntil 900000 4000 /\
  1000 * (resetIn res - 1) < 900000 - 4000 <= 1000 * resetIn res /\
  blocked res = false /\
  (5 - 4 <= 0 -> success res = false /\ remaining res = 0) /\
  (5 - 4 > 0 -> success res = true /\ remaining res = 1).
Proof.
  apply (checkRateLimit_window_remaining sampleClient 4000 sampleFourFailures
           {| count := 4; firstAttemptAt := 0; lastAttemptAt := 3000;
              blockedUntil := None |}).
  - reflexivity.
  - exact I.
  - cbn. lia.
Defined.

(** C7. With [MAX_ATTEMPTS = 5], five failures within one window on an
    identifier without a record: the first four return [success = true]
    with [remaining] 4, 3, 2, 1; the first two carry no message, the third
    and fourth carry the warning that names 2 and 1; the fifth returns
    [success = false], [blocked = true] and [resetIn = 1800]. *)
Theorem five_failures_scenario identifier (t : Table) t1 t2 t3 t4 t5 :
  t !! identifier = None ->
  t2 <= t1 + WINDOW_MS CONFIG ->
  t3 <= t1 + WINDOW_MS CONFIG ->
  t4 <= t1 + WINDOW_MS CONFIG ->
  t5 <= t1 + WINDOW_MS CONFIG ->
  let results := (recordFailures identifier [t1; t2; t3; t4; t5] t).1 in
  MAX_ATTEMPTS CONFIG = 5 /\
  success <$> results = [true; true; true; true; false] /\
  remaining <$> results = [4; 3; 2; 1; 0] /\
  blocked <$> results = [false; false; false; false; true] /\
  message <$> results =
    [None; None;
     Some "还剩 2 次尝试机会"; Some "还剩 1 次尝试机会";
     Some "登录尝试次数过多，账户已被临时锁定 30 分钟"] /\
  resetIn <$> results !! 4%nat = Some 1800.
Proof.
  intros Ht H2 H3 H4 H5 results. subst results.
  rewrite (five_failures identifier t t1 t2 t3 t4 t5) by assumption.
  cbn [fst fmap list_fmap success remaining blocked message resetIn].
  repeat split.
Qed.

Lemma five_failures_scenario_witness :
  let results :=
    (recordFailures sampleClient [0; 1000; 2000; 3000; 4000] ∅).1 in
  MAX_ATTEMPTS CONFIG = 5 /\
  success <$> results = [true; true; true; true; false] /\
  remaining <$> results = [4; 3; 2; 1; 0] /\
  blocked <$> results = [false; false; false; false; true] /\
  message <$> results =
    [None; None;
     Some "还剩 2 次尝试机会"; Some "还剩 1 次尝试机会";
     Some "登录尝试次数过多，账户已被临时锁定 30 分钟"] /\
  resetIn <$> results !! 4%nat = Some 1800.
Proof.
  apply (five_failures_scenario sampleClient ∅ 0 1000 2000 3000 4000).
  - reflexivity.
  - cbn. lia.
  - cbn. lia.
  - cbn. lia.
  - cbn. lia.
Defined.

(** C8. [clearRateLimit] deletes the identifier's record (the row is gone,
    not reset) and touches no other row; clearing twice is clearing once;
    clearing an identifier without a record changes nothing; and after a
    clear, [checkRateLimit] for the identifier returns what it returns in
    any table that has never held a record for it. *)
Theorem clearRateLimit_deletes identifier (t : Table) :
  let cleared := (clearRateLimit identifier t).2 in
  cleared !! identifier = None /\
  (forall other, other <> identifier -> cleared !! other = t !! other) /\
  (clearRateLimit identifier cleared).2 = cleared /\
  (t !! identifier = None -> cleared = t) /\
  (forall nowMs (unseen : Table),
      unseen !! identifier = None ->
      (checkRateLimit identifier nowMs cleared).1 =
      (checkRateLimit identifier nowMs unseen).1).
Proof.
  intros cleared. subst cleared. rewrite !clearRateLimit_table.
  split; [apply lookup_delete_eq|].
  split; [intros other Hne; by apply lookup_delete_ne|].
  split; [apply delete_delete_eq|].
  split; [apply delete_id|].
  intros nowMs unseen Hunseen.
  rewrite (checkRateLimit_absent _ _ _ Hunseen).
  by rewrite (checkRateLimit_absent _ _ _ (lookup_delete_eq t identifier)).
Qed.

Lemma clearRateLimit_deletes_witness :
  let cleared := (clearRateLimit sampleClient sampleLocked).2 in
  cleared !! sampleClient = None /\
  cleared !! "198.51.100.1" = sampleLocked !! "198.51.100.1" /\
  (clearRateLimit sampleClient cleared).2 = cleared /\
  (clearRateLimit sampleClient ∅).2 = ∅ /\
  (checkRateLimit sampleClient 5500 cleared).1 =
  (checkRateLimit sampleClient 5500 ∅).1.
Proof.
  destruct (clearRateLimit_deletes sampleClient sampleLocked)
    as (Hgone & Hframe & Hidem & _ & Hcheck).
  destruct (clearRateLimit_deletes sampleClient ∅) as (_ & _ & _ & Hnoop & _).
  split; [exact Hgone|].
  split; [apply Hframe; discriminate|].
  split; [exact Hidem|].
  split; [apply Hnoop; reflexivity|].
  apply Hcheck. reflexivity.
Defined.

(** C9. [getClientIP] returns [cf-connecting-ip] when it is populated;
    otherwise, when [x-forwarded-for] is populated, the text before its
    first comma with the white space at both ends removed; otherwise
    [x-real-ip] when it is populated; otherwise ["unknown"].  The first
    populated header in this order decides, whatever the later ones hold. *)
Theorem getClientIP_precedence (headers : Headers) :
  (forall v,
      get headers "cf-connecting-ip" = Some v -> v <> "" ->
      getClientIP headers = Some v) /\
  (~ populated headers "cf-connecting-ip" ->
   forall v,
      get headers "x-forwarded-for" = Some v -> v <> "" ->
      exists first tail pre post,
        v = first +:+ tail /\ noComma first /\
        (tail = "" \/ exists more, tail = String "," more) /\
        first = pre +:+ trim first +:+ post /\
        allWhiteSpace pre /\ allWhiteSpace post /\ trimmed (trim first) /\
        getClientIP headers = Some (trim first)) /\
  (~ populated headers "cf-connecting-ip" ->
   ~ populated headers "x-forwarded-for" ->
   forall v,
      get headers "x-real-ip" = Some v -> v <> "" ->
      getClientIP headers = Some v) /\
  (~ populated headers "cf-connecting-ip" ->
   ~ populated headers "x-forwarded-for" ->
   ~ populated headers "x-real-ip" ->
   getClientIP headers = Some "unknown").
Proof.
  unfold getClientIP. repeat split.
  - intros v Hget Hv. by rewrite (truthy_value _ _ _ Hget Hv).
  - intros Hcf v Hget Hv.
    rewrite (truthy_unpopulated _ _ Hcf), (truthy_value _ _ _ Hget Hv), Hget.
    destruct (split_nonempty "," v) as (first & pieces & Hsplit).
    destruct (split_first "," v first) as (tail & Hv' & Hclean & Htail);
      [by rewrite Hsplit|].
    destruct (trim_spec first) as (pre & post & Hfirst & Hpre & Hpost & Htrim).
    exists first, tail, pre, post. rewrite Hsplit.
    split; [exact Hv'|]. split; [exact Hclean|]. split; [exact Htail|].
    split; [exact Hfirst|]. split; [exact Hpre|]. split; [exact Hpost|].
    split; [exact Htrim | reflexivity].
  - intros Hcf Hxff v Hget Hv.
    by rewrite (truthy_unpopulated _ _ Hcf), (truthy_unpopulated _ _ Hxff),
      (truthy_value _ _ _ Hget Hv).
  - intros Hcf Hxff Hreal.
    by rewrite (truthy_unpopulated _ _ Hcf), (truthy_unpopulated _ _ Hxff),
      (truthy_unpopulated _ _ Hreal).
Qed.

Ltac not_populated :=
  let H := fresh in
  intros H; apply truthy_populated in H; vm_compute in H; discriminate H.

Lemma getClientIP_precedence_witness :
  getClientIP sampleEdge = Some "8.8.8.8" /\
  (exists first tail pre post,
      "1.2.3.4, 5.6.6.7" = first +:+ tail /\ noComma first /\
      (tail = "" \/ exists more, tail = String "," more) /\
      first = pre +:+ trim first +:+ post /\
      allWhiteSpace pre /\ allWhiteSpace post /\ trimmed (trim first) /\
      getClientIP sampleForwarded = Some (trim first)) /\
  getClientIP sampleRealOnly = Some "9.9.9.9" /\
  getClientIP (∅ : Headers) = Some "unknown".
Proof.
  split; [|split; [|split]].
  - apply (proj1 (getClientIP_precedence sampleEdge)); [reflexivity | discriminate].
  - apply (proj1 (proj2 (getClientIP_precedence sampleForwarded)));
      [not_populated | reflexivity | discriminate].
  - apply (proj1 (proj2 (proj2 (getClientIP_precedence sampleRealOnly))));
      [not_populated | not_populated | reflexivity | discriminate].
  - apply (proj2 (proj2 (proj2 (getClientIP_precedence ∅))));
      not_populated.
Defined.

(** C10. [getClientIP] can return the empty string instead of ["unknown"]:
    when [cf-connecting-ip] is absent and [x-forwarded-for] is non-empty
    but its first comma-separated entry trims to the empty string (as in
    [", 5.6.7.8"]), the result is [""], whatever [x-real-ip] holds. *)
Theorem getClientIP_empty_forwarded_entry (headers : Headers) v first :
  get headers "cf-connecting-ip" = None ->
  get headers "x-forwarded-for" = Some v ->
  v <> "" ->
  split "," v !! 0%nat = Some first ->
  trim first = "" ->
  getClientIP headers = Some "" /\
  getClientIP headers <> Some "unknown" /\
  forall realIP, getClientIP (<["x-real-ip" := realIP]> headers) = Some "".
Proof.
  intros Hcf Hxff Hv Hsplit Htrim.
  assert (forall h : Headers,
            get h "cf-connecting-ip" = None ->
            get h "x-forwarded-for" = Some v ->
            getClientIP h = Some "") as Hempty.
  { intros h Hcf' Hxff'. unfold getClientIP.
    rewrite Hcf', (truthy_value _ _ _ Hxff' Hv), Hxff', Hsplit. cbn.
    by rewrite Htrim. }
  split; [by apply Hempty|].
  split; [by rewrite (Hempty headers)|].
  intros realIP. apply Hempty; unfold get in *; by rewrite lookup_insert_ne.
Qed.

Lemma getClientIP_empty_forwarded_entry_witness :
  getClientIP sampleEmptyFirst = Some "" /\
  getClientIP sampleEmptyFirst <> Some "unknown" /\
  forall realIP,
    getClientIP (<["x-real-ip" := realIP]> sampleEmptyFirst) = Some "".
Proof.
  apply (getClientIP_empty_forwarded_entry sampleEmptyFirst ", 5.6.7.8" "").
  - reflexivity.
  - reflexivity.
  - discriminate.
  - reflexivity.
  - reflexivity.
Defined.

(** * Further properties of the limiter *)

(** ** Helper facts *)

Lemma secondsUntil_nonneg targetMs nowMs : 0 <= secondsUntil targetMs nowMs.
Proof. unfold secondsUntil. lia. Qed.

Lemma secondsUntil_at_most targetMs nowMs n :
  0 <= n -> targetMs - nowMs <= 1000 * n -> secondsUntil targetMs nowMs <= n.
Proof.
  intros Hn Hgap. unfold secondsUntil.
  pose proof (ceilDiv_bounds (targetMs - nowMs) 1000 ltac:(lia)) as Hc.
  lia.
Qed.

Lemma checkRateLimit_window_over identifier nowMs (t : Table) r :
  t !! identifier = Some r ->
  noActiveBlock r nowMs ->
  nowMs > firstAttemptAt r + WINDOW_MS CONFIG ->
  (checkRateLimit identifier nowMs t).1 =
    {| success := true;
       remaining := MAX_ATTEMPTS CONFIG;
       resetIn := secondsUntil (nowMs + WINDOW_MS CONFIG) nowMs;
       blocked := false;
       message := None |}.
Proof.
  intros Ht Hnb Hw. unfold checkRateLimit, noActiveBlock in *. run_db.
  rewrite Ht. destruct (blockedUntil r); repeat case_decide; done || lia.
Qed.

(** The three ways a row stands to the clock. *)
Lemma row_cases r nowMs :
  (exists b, blockedUntil r = Some b /\ b > nowMs) \/
  (noActiveBlock r nowMs /\ nowMs > firstAttemptAt r + WINDOW_MS CONFIG) \/
  (noActiveBlock r nowMs /\ nowMs <= firstAttemptAt r + WINDOW_MS CONFIG).
Proof.
  unfold noActiveBlock. destruct (blockedUntil r) as [b|].
  - destruct (decide (b > nowMs)); [left; eauto|].
    destruct (decide (nowMs > firstAttemptAt r + WINDOW_MS CONFIG));
      [right; left | right; right]; split; lia.
  - destruct (decide (nowMs > firstAttemptAt r + WINDOW_MS CONFIG));
      [right; left | right; right]; split; done || lia.
Qed.

Lemma recordFailedAttempt_other identifier nowMs (t : Table) other :
  other <> identifier ->
  (recordFailedAttempt identifier nowMs t).2 !! other = t !! other.
Proof.
  intros Hne. destruct (t !! identifier) as [r|] eqn:Ht.
  2:{ rewrite (recordFailedAttempt_absent _ _ _ Ht). cbn.
      by apply lookup_insert_ne. }
  destruct (row_cases r nowMs) as [(b & Hb & Hgt) | [[Hnb Hw] | [Hnb Hw]]].
  - by rewrite (recordFailedAttempt_blocked _ _ _ _ _ Ht Hb Hgt).
  - rewrite (recordFailedAttempt_window_expired _ _ _ _ Ht Hnb Hw). cbn.
    by apply lookup_insert_ne.
  - destruct (decide (count r + 1 >= MAX_ATTEMPTS CONFIG)) as [Hc | Hc].
    + rewrite (recordFailedAttempt_locks _ _ _ _ Ht Hnb Hw Hc). cbn.
      by apply lookup_insert_ne.
    + rewrite (recordFailedAttempt_counts _ _ _ _ Ht Hnb Hw ltac:(lia)). cbn.
      by apply lookup_insert_ne.
Qed.

Lemma recordFailedAttempt_keeps_row identifier nowMs (t : Table) :
  is_Some ((recordFailedAttempt identifier nowMs t).2 !! identifier).
Proof.
  destruct (t !! identifier) as [r|] eqn:Ht.
  2:{ rewrite (recordFailedAttempt_absent _ _ _ Ht). cbn.
      rewrite lookup_insert_eq. eauto. }
  destruct (row_cases r nowMs) as [(b & Hb & Hgt) | [[Hnb Hw] | [Hnb Hw]]].
  - rewrite (recordFailedAttempt_blocked _ _ _ _ _ Ht Hb Hgt). cbn. eauto.
  - rewrite (recordFailedAttempt_window_expired _ _ _ _ Ht Hnb Hw). cbn.
    rewrite lookup_insert_eq. eauto.
  - destruct (decide (count r + 1 >= MAX_ATTEMPTS CONFIG)) as [Hc | Hc].
    + rewrite (recordFailedAttempt_locks _ _ _ _ Ht Hnb Hw Hc). cbn.
      rewrite lookup_insert_eq. eauto.
    + rewrite (recordFailedAttempt_counts _ _ _ _ Ht Hnb Hw ltac:(lia)). cbn.
      rewrite lookup_insert_eq. eauto.
Qed.

(** ** Results *)

(** X1. For clock readings that are safe integers less than 2^53 apart,
    where the floating-point quotient of the source rounds up to the exact
    ceiling, [secondsUntil] is never negative, is 0 exactly when the target
    is not in the future, and otherwise is the least whole number of
    seconds that covers the gap. *)
Theorem secondsUntil_least_cover targetMs nowMs :
  - 2 ^ 53 < targetMs < 2 ^ 53 ->
  - 2 ^ 53 < nowMs < 2 ^ 53 ->
  - 2 ^ 53 < targetMs - nowMs < 2 ^ 53 ->
  let s := secondsUntil targetMs nowMs in
  0 <= s /\
  (s = 0 <-> targetMs <= nowMs) /\
  targetMs - nowMs <= 1000 * s /\
  (forall n, 0 <= n -> targetMs - nowMs <= 1000 * n -> s <= n).
Proof.
  intros _ _ _ s. subst s.
  pose proof (secondsUntil_nonneg targetMs nowMs) as Hpos.
  destruct (decide (targetMs <= nowMs)) as [Hle | Hgt].
  - rewrite (secondsUntil_past _ _ Hle). repeat split; intros; lia.
  - pose proof (secondsUntil_rounds_up targetMs nowMs ltac:(lia)) as Hup.
    repeat split; intros; lia.
Qed.

Lemma secondsUntil_least_cover_witness :
  0 <= secondsUntil 1001 0 /\
  (secondsUntil 500 500 = 0) /\
  1001 - 0 <= 1000 * secondsUntil 1001 0 /\
  secondsUntil 1001 0 <= 2.
Proof.
  destruct (secondsUntil_least_cover 1001 0) as (Hpos & _ & Hcover & Hleast);
    [lia | lia | lia |].
  destruct (secondsUntil_least_cover 500 500) as (_ & Hzero & _);
    [lia | lia | lia |].
  split; [exact Hpos|]. split; [apply Hzero; lia|].
  split; [exact Hcover|]. apply Hleast; lia.
Defined.

(** X2. Whatever the table holds, the result of [checkRateLimit] and of
    [recordFailedAttempt] is coherent: [success] holds exactly when
    [remaining] is positive, [remaining] and [resetIn] are never negative,
    a blocked result is a denial, and every denial carries a message.  For
    [recordFailedAttempt] a denial is always flagged as blocked. *)
Theorem decisions_coherent identifier nowMs (t : Table) :
  let checked := (checkRateLimit identifier nowMs t).1 in
  let recorded := (recordFailedAttempt identifier nowMs t).1 in
  ((success checked = true <-> 0 < remaining checked) /\
   0 <= remaining checked /\ 0 <= resetIn checked /\
   (blocked checked = true -> success checked = false) /\
   (success checked = false -> message checked <> None)) /\
  ((success recorded = true <-> 0 < remaining recorded) /\
   0 <= remaining recorded /\ 0 <= resetIn recorded /\
   blocked recorded = negb (success recorded) /\
   (success recorded = false -> message recorded <> None)).
Proof.
  intros checked recorded. subst checked recorded.
  pose proof secondsUntil_nonneg as Hpos.
  destruct (t !! identifier) as [r|] eqn:Ht.
  2:{ rewrite (checkRateLimit_absent _ _ _ Ht),
        (recordFailedAttempt_absent _ _ _ Ht).
      cbn [fst success remaining resetIn blocked message]. config.
      repeat split; intros; try done; try lia; apply Hpos. }
  destruct (row_cases r nowMs) as [(b & Hb & Hgt) | [[Hnb Hw] | [Hnb Hw]]].
  - rewrite (checkRateLimit_blocked _ _ _ _ _ Ht Hb Hgt),
      (recordFailedAttempt_blocked _ _ _ _ _ Ht Hb Hgt).
    cbn [fst success remaining resetIn blocked message].
    repeat split; intros; try done; try lia; apply Hpos.
  - rewrite (checkRateLimit_window_over _ _ _ _ Ht Hnb Hw),
      (recordFailedAttempt_window_expired _ _ _ _ Ht Hnb Hw).
    cbn [fst success remaining resetIn blocked message]. config.
    repeat split; intros; try done; try lia; apply Hpos.
  - rewrite (checkRateLimit_in_window _ _ _ _ Ht Hnb Hw).
    split.
    + case_decide; cbn [success remaining resetIn blocked message];
        repeat split; intros; try done; try lia; apply Hpos.
    + destruct (decide (count r + 1 >= MAX_ATTEMPTS CONFIG)) as [Hc | Hc].
      * rewrite (recordFailedAttempt_locks _ _ _ _ Ht Hnb Hw Hc).
        cbn [fst success remaining resetIn blocked message].
        repeat split; intros; try done; try lia; apply Hpos.
      * rewrite (recordFailedAttempt_counts _ _ _ _ Ht Hnb Hw ltac:(lia)).
        cbn [fst success remaining resetIn blocked message].
        repeat split; intros; try done; try lia; apply Hpos.
Qed.

Lemma decisions_coherent_witness :
  let checked := (checkRateLimit sampleClient 5500 sampleLocked).1 in
  let recorded := (recordFailedAttempt sampleClient 4000 sampleFourFailures).1 in
  success checked = false /\
  message checked <> None /\
  blocked recorded = negb (success recorded) /\
  message recorded <> None.
Proof.
  destruct (decisions_coherent sampleClient 5500 sampleLocked)
    as ((_ & _ & _ & Hdeny & Hmsg) & _).
  destruct (decisions_coherent sampleClient 4000 sampleFourFailures)
    as (_ & (_ & _ & _ & Hflag & Hmsg')).
  split; [apply Hdeny; vm_compute; reflexivity|].
  split; [apply Hmsg, Hdeny; vm_compute; reflexivity|].
  split; [exact Hflag|].
  apply Hmsg'. vm_compute. reflexivity.
Defined.

(** ** Branches the window decides *)

(** X3. For [checkRateLimit] a record whose window has expired and whose
    block, if any, has run out counts as no record: the result is the full
    allowance with [resetIn = 900], the result for an unknown identifier. *)
Theorem checkRateLimit_expired_window_as_new identifier nowMs (t : Table) r :
  t !! identifier = Some r ->
  noActiveBlock r nowMs ->
  nowMs > firstAttemptAt r + WINDOW_MS CONFIG ->
  (checkRateLimit identifier nowMs t).1 =
    {| success := true; remaining := 5; resetIn := 900;
       blocked := false; message := None |} /\
  (checkRateLimit identifier nowMs t).1 = (checkRateLimit identifier nowMs ∅).1.
Proof.
  intros Ht Hnb Hw.
  rewrite (checkRateLimit_window_over _ _ _ _ Ht Hnb Hw).
  rewrite (checkRateLimit_absent identifier nowMs ∅) by apply lookup_empty.
  config. replace (15 * 60 * 1000) with (1000 * 900) by lia.
  by rewrite (secondsUntil_shift nowMs 900) by lia.
Qed.

Lemma checkRateLimit_expired_window_as_new_witness :
  (checkRateLimit sampleClient 1000000 sampleFourFailures).1 =
    {| success := true; remaining := 5; resetIn := 900;
       blocked := false; message := None |} /\
  (checkRateLimit sampleClient 1000000 sampleFourFailures).1 =
    (checkRateLimit sampleClient 1000000 ∅).1.
Proof.
  apply (checkRateLimit_expired_window_as_new sampleClient 1000000
           sampleFourFailures
           {| count := 4; firstAttemptAt := 0; lastAttemptAt := 3000;
              blockedUntil := None |}).
  - reflexivity.
  - exact I.
  - cbn. lia.
Defined.

(** X4. [recordFailedAttempt] writes to the row of its identifier only:
    afterwards that identifier has a row, every other identifier has the
    row (or the absence of one) it had before, and the identifiers of the
    table are the old ones and this one. *)
Theorem recordFailedAttempt_touches_one_row identifier nowMs (t : Table) :
  let after := (recordFailedAttempt identifier nowMs t).2 in
  is_Some (after !! identifier) /\
  (forall other, other <> identifier -> after !! other = t !! other) /\
  dom after = {[ identifier ]} ∪ dom t.
Proof.
  intros after. subst after.
  split; [apply recordFailedAttempt_keeps_row|].
  split; [intros other Hne; by apply recordFailedAttempt_other|].
  apply set_eq. intros x.
  rewrite elem_of_union, elem_of_singleton, !elem_of_dom.
  destruct (decide (x = identifier)) as [-> | Hne].
  - pose proof (recordFailedAttempt_keeps_row identifier nowMs t). tauto.
  - rewrite (recordFailedAttempt_other _ _ _ _ Hne). tauto.
Qed.

Lemma recordFailedAttempt_touches_one_row_witness :
  let after := (recordFailedAttempt "198.51.100.1" 5500 sampleLocked).2 in
  is_Some (after !! "198.51.100.1") /\
  after !! sampleClient = sampleLocked !! sampleClient /\
  dom after = {[ "198.51.100.1" ]} ∪ dom sampleLocked.
Proof.
  destruct (recordFailedAttempt_touches_one_row "198.51.100.1" 5500 sampleLocked)
    as (Hrow & Hframe & Hdom).
  split; [exact Hrow|]. split; [apply Hframe; discriminate | exact Hdom].
Defined.

(** X5. Once the window of a record has expired (and no block is running),
    the next failure starts a new window instead of counting on: the row
    becomes [count = 1], [firstAttemptAt = lastAttemptAt = nowMs],
    [blockedUntil = null], whatever the old count was, and the call allows
    with [remaining = MAX_ATTEMPTS - 1] and [resetIn = 900]. *)
Theorem recordFailedAttempt_starts_new_window identifier nowMs (t : Table) r :
  t !! identifier = Some r ->
  noActiveBlock r nowMs ->
  nowMs > firstAttemptAt r + WINDOW_MS CONFIG ->
  let out := recordFailedAttempt identifier nowMs t in
  out.2 !! identifier =
    Some {| count := 1; firstAttemptAt := nowMs; lastAttemptAt := nowMs;
            blockedUntil := None |} /\
  out.1 = {| success := true; remaining := MAX_ATTEMPTS CONFIG - 1;
             resetIn := 900; blocked := false; message := None |}.
Proof.
  intros Ht Hnb Hw out. subst out.
  rewrite (recordFailedAttempt_window_expired _ _ _ _ Ht Hnb Hw).
  cbn [fst snd]. split; [apply lookup_insert_eq|].
  config. replace (15 * 60 * 1000) with (1000 * 900) by lia.
  by rewrite (secondsUntil_shift nowMs 900) by lia.
Qed.

Lemma recordFailedAttempt_starts_new_window_witness :
  let out := recordFailedAttempt sampleClient 1000000 sampleFourFailures in
  out.2 !! sampleClient =
    Some {| count := 1; firstAttemptAt := 1000000; lastAttemptAt := 1000000;
            blockedUntil := None |} /\
  out.1 = {| success := true; remaining := 4;
             resetIn := 900; blocked := false; message := None |}.
Proof.
  apply (recordFailedAttempt_starts_new_window sampleClient 1000000
           sampleFourFailures
           {| count := 4; firstAttemptAt := 0; lastAttemptAt := 3000;
              blockedUntil := None |}).
  - reflexivity.
  - exact I.
  - cbn. lia.
Defined.

(** X6. In an active window with no running block, a failure that stays
    below [MAX_ATTEMPTS] stores [count + 1] and [lastAttemptAt = nowMs] and
    keeps [firstAttemptAt] and [blockedUntil]; it allows with
    [remaining = MAX_ATTEMPTS - (count + 1)], [resetIn] the seconds to the
    end of the window, and the warning exactly when [remaining <= 2]. *)
Theorem recordFailedAttempt_counts_up identifier nowMs (t : Table) r :
  t !! identifier = Some r ->
  noActiveBlock r nowMs ->
  nowMs <= firstAttemptAt r + WINDOW_MS CONFIG ->
  count r + 1 < MAX_ATTEMPTS CONFIG ->
  let out := recordFailedAttempt identifier nowMs t in
  let left := MAX_ATTEMPTS CONFIG - (count r + 1) in
  out.2 !! identifier =
    Some {| count := count r + 1; firstAttemptAt := firstAttemptAt r;
            lastAttemptAt := nowMs; blockedUntil := blockedUntil r |} /\
  success out.1 = true /\ blocked out.1 = false /\
  remaining out.1 = left /\
  resetIn out.1 = secondsUntil (firstAttemptAt r + WINDOW_MS CONFIG) nowMs /\
  (left <= 2 -> message out.1 = Some (msgRemaining left)) /\
  (left > 2 -> message out.1 = None).
Proof.
  intros Ht Hnb Hw Hc out left. subst out left.
  rewrite (recordFailedAttempt_counts _ _ _ _ Ht Hnb Hw Hc).
  cbn [fst snd success remaining resetIn blocked message].
  split; [apply lookup_insert_eq|].
  repeat split; intros; case_decide; done || lia.
Qed.

Lemma recordFailedAttempt_counts_up_witness :
  let out := recordFailedAttempt sampleClient 2000 sampleTwoFailures in
  out.2 !! sampleClient =
    Some {| count := 3; firstAttemptAt := 0;
            lastAttemptAt := 2000; blockedUntil := None |} /\
  success out.1 = true /\ blocked out.1 = false /\
  remaining out.1 = 2 /\
  resetIn out.1 = secondsUntil 900000 2000 /\
  message out.1 = Some "还剩 2 次尝试机会".
Proof.
  destruct (recordFailedAttempt_counts_up sampleClient 2000 sampleTwoFailures
              {| count := 2; firstAttemptAt := 0; lastAttemptAt := 1000;
                 blockedUntil := None |})
    as (Hrow & Hok & Hnb & Hleft & Hreset & Hwarn & _).
  - reflexivity.
  - exact I.
  - cbn. lia.
  - cbn. lia.
  - split; [exact Hrow|]. split; [exact Hok|]. split; [exact Hnb|].
    split; [exact Hleft|]. split; [exact Hreset|].
    apply Hwarn. cbn. lia.
Defined.

(** ** How the calls compose *)

(** X7. A [checkRateLimit] made right after a [recordFailedAttempt], at
    the same clock reading, gives the verdict the failure was answered
    with: the same [success], [remaining], [resetIn] and [blocked], for
    every table. *)
Theorem check_after_failure_agrees identifier nowMs (t : Table) :
  let out := recordFailedAttempt identifier nowMs t in
  let checked := (checkRateLimit identifier nowMs out.2).1 in
  success checked = success out.1 /\
  remaining checked = remaining out.1 /\
  resetIn checked = resetIn out.1 /\
  blocked checked = blocked out.1.
Proof.
  intros out checked. subst out checked.
  assert (forall t' : Table,
            t' !! identifier = Some (freshRow nowMs) ->
            (checkRateLimit identifier nowMs t').1 =
              {| success := true;
                 remaining := MAX_ATTEMPTS CONFIG - 1;
                 resetIn := secondsUntil (nowMs + WINDOW_MS CONFIG) nowMs;
                 blocked := false;
                 message := None |}) as Hfresh.
  { intros t' Ht'.
    rewrite (checkRateLimit_in_window _ _ _ _ Ht') by (exact I || arith).
    by case_decide. }
  destruct (t !! identifier) as [r|] eqn:Ht.
  2:{ rewrite (recordFailedAttempt_absent _ _ _ Ht). cbn [fst snd].
      by rewrite Hfresh by apply lookup_insert_eq. }
  destruct (row_cases r nowMs) as [(b & Hb & Hgt) | [[Hnb Hw] | [Hnb Hw]]].
  - rewrite (recordFailedAttempt_blocked _ _ _ _ _ Ht Hb Hgt). cbn [fst snd].
    by rewrite (checkRateLimit_blocked _ _ _ _ _ Ht Hb Hgt).
  - rewrite (recordFailedAttempt_window_expired _ _ _ _ Ht Hnb Hw).
    cbn [fst snd]. by rewrite Hfresh by apply lookup_insert_eq.
  - destruct (decide (count r + 1 >= MAX_ATTEMPTS CONFIG)) as [Hc | Hc].
    + rewrite (recordFailedAttempt_locks _ _ _ _ Ht Hnb Hw Hc). cbn [fst snd].
      erewrite checkRateLimit_blocked;
        [ | apply lookup_insert_eq | reflexivity | config; lia ].
      done.
    + rewrite (recordFailedAttempt_counts _ _ _ _ Ht Hnb Hw ltac:(lia)).
      cbn [fst snd].
      erewrite checkRateLimit_in_window;
        [ | apply lookup_insert_eq | exact Hnb | exact Hw ].
      cbn [count firstAttemptAt]. case_decide; [lia | done].
Qed.

(** X8. A running block cannot be shortened, extended or lifted by further
    traffic: through any calls made before [blockedUntil], other than a
    [clearRateLimit] of that identifier, the row stays exactly as it is,
    and [checkRateLimit] keeps denying as blocked until [blockedUntil]. *)
Theorem active_block_persists identifier (t : Table) r blockedUntilMs calls :
  t !! identifier = Some r ->
  blockedUntil r = Some blockedUntilMs ->
  Forall (fun call : Z * Call =>
            call.1 < blockedUntilMs /\ call.2 <> Clear identifier) calls ->
  runCalls calls t !! identifier = Some r /\
  forall nowMs, nowMs < blockedUntilMs ->
    let checked := (checkRateLimit identifier nowMs (runCalls calls t)).1 in
    success checked = false /\ blocked checked = true /\
    resetIn checked = secondsUntil blockedUntilMs nowMs.
Proof.
  intros Ht Hb Hcalls.
  assert (runCalls calls t !! identifier = Some r) as Hkept.
  { revert t Ht. induction Hcalls as [|[nowMs c] calls [Hnow Hc] _ IH];
      intros t Ht; [exact Ht|].
    cbn [runCalls]. apply IH. cbn in Hnow, Hc. unfold tableAfter.
    destruct c as [other | other | other]; cbn [perform]; unfold bind, ret.
    - pose proof (checkRateLimit_reads_only other nowMs t) as Hro.
      destruct (checkRateLimit other nowMs t) as [res t']. cbn in *.
      by subst t'.
    - destruct (decide (other = identifier)) as [-> | Hne].
      + assert (blockedUntilMs > nowMs) as Hgt by lia.
        rewrite (recordFailedAttempt_blocked _ _ _ _ _ Ht Hb Hgt).
        exact Ht.
      + pose proof (recordFailedAttempt_other other nowMs t identifier
                      ltac:(congruence)) as Hframe.
        destruct (recordFailedAttempt other nowMs t) as [res t']. cbn in *.
        by rewrite Hframe.
    - unfold clearRateLimit. run_db. cbn.
      rewrite lookup_delete_ne by congruence. exact Ht. }
  split; [exact Hkept|]. intros nowMs Hnow checked. subst checked.
  assert (blockedUntilMs > nowMs) as Hgt by lia.
  by rewrite (checkRateLimit_blocked _ _ _ _ _ Hkept Hb Hgt).
Qed.

Lemma active_block_persists_witness :
  let calls := [ (5000, RecordFailure sampleClient);
                 (6000, Check sampleClient);
                 (7000, Clear "198.51.100.1");
                 (1803999, RecordFailure sampleClient) ] in
  runCalls calls sampleLocked !! sampleClient = Some sampleLockedRow /\
  let checked := (checkRateLimit sampleClient 1803999
                    (runCalls calls sampleLocked)).1 in
  success checked = false /\ blocked checked = true /\
  resetIn checked = secondsUntil 1804000 1803999.
Proof.
  intros calls.
  destruct (active_block_persists sampleClient sampleLocked sampleLockedRow
              1804000 calls) as (Hkept & Hcheck).
  - exact sampleLocked_lookup.
  - reflexivity.
  - repeat constructor; cbn; lia || discriminate.
  - split; [exact Hkept|]. apply Hcheck. lia.
Defined.

(** X9. A successful login wipes the history: a failure recorded after
    [clearRateLimit] is answered as a first failure and stores a fresh row
    ([count = 1], window starting now, no block), also when the identifier
    was blocked before the clear. *)
Theorem failure_after_clear_is_first identifier nowMs (t : Table) :
  let out := recordFailedAttempt identifier nowMs
               (clearRateLimit identifier t).2 in
  out.1 = (recordFailedAttempt identifier nowMs ∅).1 /\
  out.2 = <[identifier := {| count := 1; firstAttemptAt := nowMs;
                             lastAttemptAt := nowMs;
                             blockedUntil := None |}]> t /\
  success out.1 = true /\ remaining out.1 = MAX_ATTEMPTS CONFIG - 1.
Proof.
  intros out. subst out. rewrite clearRateLimit_table.
  rewrite (recordFailedAttempt_absent identifier nowMs (delete identifier t))
    by apply lookup_delete_eq.
  rewrite (recordFailedAttempt_absent identifier nowMs ∅) by apply lookup_empty.
  cbn [fst snd success remaining].
  split; [done|]. split; [apply insert_delete_eq | done].
Qed.

(** ** Reachable tables *)

(** X10. In a table reached by calls under a clock that does not run
    backwards, every row has [firstAttemptAt <= lastAttemptAt <= now]; it
    carries a [blockedUntil] exactly when its count has reached
    [MAX_ATTEMPTS], and that [blockedUntil] is [lastAttemptAt +
    BLOCK_DURATION_MS], set inside the window and ending after it. *)
Theorem reachable_row_shape nowMs (t : Table) identifier r :
  reachable nowMs t ->
  t !! identifier = Some r ->
  firstAttemptAt r <= lastAttemptAt r <= nowMs /\
  (blockedUntil r = None <-> count r < MAX_ATTEMPTS CONFIG) /\
  (forall blockedUntilMs,
      blockedUntil r = Some blockedUntilMs ->
      count r = MAX_ATTEMPTS CONFIG /\
      blockedUntilMs = lastAttemptAt r + BLOCK_DURATION_MS CONFIG /\
      lastAttemptAt r <= firstAttemptAt r + WINDOW_MS CONFIG /\
      firstAttemptAt r + WINDOW_MS CONFIG < blockedUntilMs).
Proof.
  intros Hreach Ht.
  destruct (reachable_rows_ok _ _ Hreach _ _ Ht) as (Hc & Htimes & Hblk).
  split; [exact Htimes|]. destruct (blockedUntil r) as [b|].
  - destruct Hblk as (Hb & Hmax & Hin). split.
    + split; [discriminate | lia].
    + intros ? [= <-]. config. lia.
  - split; [done | discriminate].
Qed.

Lemma reachable_row_shape_witness :
  firstAttemptAt sampleLockedRow <= lastAttemptAt sampleLockedRow <= 4000 /\
  count sampleLockedRow = 5 /\
  1804000 = lastAttemptAt sampleLockedRow + 1800000.
Proof.
  destruct (reachable_row_shape 4000 sampleLocked sampleClient sampleLockedRow)
    as (Htimes & _ & Hblk).
  - exact sampleLocked_reachable.
  - exact sampleLocked_lookup.
  - destruct (Hblk 1804000 eq_refl) as (Hmax & Hb & _).
    split; [exact Htimes|]. split; [exact Hmax | exact Hb].
Defined.

(** X11. On a reachable table [checkRateLimit] denies only as blocked: the
    denial with [blocked = false] of a used-up window does not occur.  And
    for both functions [remaining] is at most [MAX_ATTEMPTS] and [resetIn]
    at most 1800 seconds. *)
Theorem reachable_decisions lastMs nowMs (t : Table) identifier :
  reachable lastMs t ->
  lastMs <= nowMs ->
  let checked := (checkRateLimit identifier nowMs t).1 in
  let recorded := (recordFailedAttempt identifier nowMs t).1 in
  (success checked = false -> blocked checked = true) /\
  remaining checked <= MAX_ATTEMPTS CONFIG /\
  resetIn checked <= 1800 /\
  remaining recorded <= MAX_ATTEMPTS CONFIG - 1 /\
  resetIn recorded <= 1800.
Proof.
  intros Hreach Hclock checked recorded. subst checked recorded.
  assert (forall targetMs, targetMs - nowMs <= 1800000 ->
            secondsUntil targetMs nowMs <= 1800) as Hcap.
  { intros targetMs Hgap. apply secondsUntil_at_most; lia. }
  destruct (t !! identifier) as [r|] eqn:Ht.
  2:{ rewrite (checkRateLimit_absent _ _ _ Ht),
        (recordFailedAttempt_absent _ _ _ Ht).
      cbn [fst success remaining resetIn blocked]. config.
      repeat split; try done; try lia; apply Hcap; lia. }
  pose proof (reachable_rows_ok _ _ Hreach _ _ Ht) as Hok.
  destruct (row_cases r nowMs) as [(b & Hb & Hgt) | [[Hnb Hw] | [Hnb Hw]]].
  - rewrite (checkRateLimit_blocked _ _ _ _ _ Ht Hb Hgt),
      (recordFailedAttempt_blocked _ _ _ _ _ Ht Hb Hgt).
    cbn [fst success remaining resetIn blocked].
    destruct Hok as (Hc & Htimes & Hblk). rewrite Hb in Hblk. config.
    repeat split; try done; try lia; apply Hcap; lia.
  - rewrite (checkRateLimit_window_over _ _ _ _ Ht Hnb Hw),
      (recordFailedAttempt_window_expired _ _ _ _ Ht Hnb Hw).
    cbn [fst success remaining resetIn blocked]. config.
    repeat split; try done; try lia; apply Hcap; lia.
  - assert (blockedUntil r = None) as Hnone.
    { destruct (blockedUntil r) as [b|] eqn:Hb; [|done].
      unfold noActiveBlock in Hnb. rewrite Hb in Hnb.
      pose proof (row_ok_expired_block _ nowMs _ _ Hok Hb Hnb). lia. }
    destruct Hok as (Hc & Htimes & Hblk). rewrite Hnone in Hblk.
    rewrite (checkRateLimit_in_window _ _ _ _ Ht Hnb Hw).
    destruct (decide (count r + 1 >= MAX_ATTEMPTS CONFIG)) as [Hmax | Hmax].
    + rewrite (recordFailedAttempt_locks _ _ _ _ Ht Hnb Hw Hmax).
      case_decide; [lia|].
      cbn [fst success remaining resetIn blocked]. config.
      repeat split; try done; try lia; apply Hcap; lia.
    + rewrite (recordFailedAttempt_counts _ _ _ _ Ht Hnb Hw ltac:(lia)).
      case_decide; [lia|].
      cbn [fst success remaining resetIn blocked]. config.
      repeat split; try done; try lia; apply Hcap; lia.
Qed.

Lemma reachable_decisions_witness :
  let checked := (checkRateLimit sampleClient 5500 sampleLocked).1 in
  let recorded := (recordFailedAttempt sampleClient 5500 sampleLocked).1 in
  blocked checked = true /\
  remaining checked <= 5 /\
  resetIn checked <= 1800 /\
  remaining recorded <= 4 /\
  resetIn recorded <= 1800.
Proof.
  destruct (reachable_decisions 4000 5500 sampleLocked sampleClient)
    as (Hdeny & Hrest).
  - exact sampleLocked_reachable.
  - lia.
  - split; [apply Hdeny; vm_compute; reflexivity | exact Hrest].
Defined.

(** X12. On a reachable table, once a block has run out [checkRateLimit]
    gives the full allowance again ([success], [remaining =
    MAX_ATTEMPTS], [resetIn = 900], not blocked), although the row with its
    old count is still stored: an expired block implies an expired
    window. *)
Theorem reachable_expired_block_check_allows
    lastMs nowMs (t : Table) identifier r blockedUntilMs :
  reachable lastMs t ->
  t !! identifier = Some r ->
  blockedUntil r = Some blockedUntilMs ->
  blockedUntilMs <= nowMs ->
  (checkRateLimit identifier nowMs t).1 =
    {| success := true; remaining := 5; resetIn := 900;
       blocked := false; message := None |} /\
  (checkRateLimit identifier nowMs t).2 !! identifier = Some r.
Proof.
  intros Hreach Ht Hb Hle.
  pose proof (reachable_rows_ok _ _ Hreach _ _ Ht) as Hok.
  pose proof (row_ok_expired_block _ nowMs _ _ Hok Hb Hle) as Hw.
  assert (noActiveBlock r nowMs) as Hnb
    by (unfold noActiveBlock; by rewrite Hb).
  rewrite checkRateLimit_reads_only. split; [|exact Ht].
  rewrite (checkRateLimit_window_over _ _ _ _ Ht Hnb Hw).
  config. replace (15 * 60 * 1000) with (1000 * 900) by lia.
  by rewrite (secondsUntil_shift nowMs 900) by lia.
Qed.

Lemma reachable_expired_block_check_allows_witness :
  (checkRateLimit sampleClient 1804000 sampleLocked).1 =
    {| success := true; remaining := 5; resetIn := 900;
       blocked := false; message := None |} /\
  (checkRateLimit sampleClient 1804000 sampleLocked).2 !! sampleClient =
    Some sampleLockedRow.
Proof.
  apply (reachable_expired_block_check_allows 4000 1804000 sampleLocked
           sampleClient sampleLockedRow 1804000).
  - exact sampleLocked_reachable.
  - exact sampleLocked_lookup.
  - reflexivity.
  - lia.
Defined.

(** X13. Failures inside an open window add up one by one: from a row
    without a block, failures that stay inside its window and below
    [MAX_ATTEMPTS] are all allowed, the n-th with [remaining =
    MAX_ATTEMPTS - (count + n)], and leave [count] raised by their number,
    [lastAttemptAt] at the last of them and [firstAttemptAt] unchanged. *)
Theorem failures_accumulate identifier times : forall (t : Table) r,
  t !! identifier = Some r ->
  blockedUntil r = None ->
  Forall (fun nowMs => nowMs <= firstAttemptAt r + WINDOW_MS CONFIG) times ->
  count r + Z.of_nat (length times) < MAX_ATTEMPTS CONFIG ->
  let out := recordFailures identifier times t in
  out.2 !! identifier =
    Some {| count := count r + Z.of_nat (length times);
            firstAttemptAt := firstAttemptAt r;
            lastAttemptAt := default (lastAttemptAt r) (last times);
            blockedUntil := None |} /\
  Forall (fun res => success res = true /\ blocked res = false) out.1 /\
  remaining <$> out.1 =
    (fun n => MAX_ATTEMPTS CONFIG - (count r + Z.of_nat n))
      <$> seq 1 (length times).
Proof.
  induction times as [|nowMs times IH]; intros t r Ht Hb Hall Hlen out;
    subst out.
  - cbn. rewrite Ht. split; [|split; [constructor | reflexivity]].
    destruct r as [c f l b]. cbn in *. subst b. do 2 f_equal. lia.
  - apply Forall_cons in Hall as [Hnow Hall].
    cbn [length] in Hlen. rewrite Nat2Z.inj_succ in Hlen.
    assert (noActiveBlock r nowMs) as Hnb
      by (unfold noActiveBlock; by rewrite Hb).
    rewrite recordFailures_cons.
    rewrite (recordFailedAttempt_counts _ _ _ _ Ht Hnb Hnow ltac:(lia)).
    set (r' := {| count := count r + 1;
                  firstAttemptAt := firstAttemptAt r;
                  lastAttemptAt := nowMs;
                  blockedUntil := blockedUntil r |}).
    specialize (IH (<[identifier := r']> t) r'
                  (lookup_insert_eq _ _ _) Hb Hall).
    cbn [count firstAttemptAt lastAttemptAt r'] in IH.
    specialize (IH ltac:(lia)). cbn zeta in IH.
    destruct (recordFailures identifier times (<[identifier := r']> t))
      as [results t'].
    cbn [fst snd] in *. destruct IH as (Hrow & Hres & Hrem).
    split; [|split].
    + rewrite Hrow. f_equal. rewrite last_cons. cbn [length].
      destruct (last times); cbn; f_equal; lia.
    + constructor; [by cbn | exact Hres].
    + cbn [fmap list_fmap length seq remaining].
      rewrite <- (fmap_S_seq 1), <- list_fmap_compose, Hrem.
      apply (f_equal2 cons); [cbn; lia|].
      apply list_fmap_ext. intros i n _. cbn. lia.
Qed.

Lemma failures_accumulate_witness :
  let out := recordFailures sampleClient [2000; 3000] sampleTwoFailures in
  out.2 !! sampleClient =
    Some {| count := 4; firstAttemptAt := 0;
            lastAttemptAt := 3000; blockedUntil := None |} /\
  Forall (fun res => success res = true /\ blocked res = false) out.1 /\
  remaining <$> out.1 = [2; 1].
Proof.
  apply (failures_accumulate sampleClient [2000; 3000] sampleTwoFailures
           {| count := 2; firstAttemptAt := 0; lastAttemptAt := 1000;
              blockedUntil := None |}).
  - reflexivity.
  - reflexivity.
  - repeat constructor; cbn; lia.
  - cbn. lia.
Defined.

(** * Further properties of [getClientIP] *)

Lemma split_first_of_app ip tail :
  noComma ip ->
  (tail = "" \/ exists more, tail = String "," more) ->
  split "," (ip +:+ tail) !! 0%nat = Some ip.
Proof.
  unfold noComma. intros Hclean Htail.
  induction ip as [|c ip IH].
  - change ("" +:+ tail) with tail.
    destruct Htail as [-> | (more & ->)]; reflexivity.
  - change (String c ip +:+ tail) with (String c (ip +:+ tail)).
    cbn in Hclean. apply Forall_cons in Hclean as [Hc Hclean].
    cbn [split]. destruct (Ascii.eqb_spec c ",") as [-> | _]; [done|].
    specialize (IH Hclean).
    destruct (split_nonempty "," (ip +:+ tail)) as (p & ps & Hsplit).
    rewrite Hsplit in IH |- *. cbn in IH |- *. congruence.
Qed.

Lemma trimStart_clean s :
  (forall c, firstChar s = Some c -> isWhiteSpace c = false) ->
  trimStart s = s.
Proof.
  destruct s as [|c rest]; cbn; [done|].
  intros Hfirst. by rewrite (Hfirst c eq_refl).
Qed.

Lemma trimEnd_clean s :
  (forall c, lastChar s = Some c -> isWhiteSpace c = false) ->
  trimEnd s = s.
Proof.
  induction s as [|c rest IH]; cbn; [done|].
  intros Hlast. destruct (lastChar rest) as [d|] eqn:Hrest.
  - rewrite IH by exact Hlast. by destruct rest.
  - destruct rest as [|e rest']; [|cbn in Hrest; by destruct (lastChar rest')].
    cbn. by rewrite (Hlast c eq_refl).
Qed.

Lemma trim_clean s : trimmed s -> trim s = s.
Proof.
  intros [Hfirst Hlast]. unfold trim.
  rewrite (trimStart_clean s Hfirst). by apply trimEnd_clean.
Qed.

(** X14. [getClientIP] reads three headers and no other: setting or
    removing any other header leaves its result as it was. *)
Theorem getClientIP_ignores_other_headers (headers : Headers) name v :
  name <> "cf-connecting-ip" ->
  name <> "x-forwarded-for" ->
  name <> "x-real-ip" ->
  getClientIP (<[name := v]> headers) = getClientIP headers /\
  getClientIP (delete name headers) = getClientIP headers.
Proof.
  intros Hcf Hxff Hreal. unfold getClientIP, get.
  by rewrite !lookup_insert_ne, !lookup_delete_ne by done.
Qed.

Lemma getClientIP_ignores_other_headers_witness :
  getClientIP (<["user-agent" := "curl/8.5.0"]> sampleForwarded)
    = getClientIP sampleForwarded /\
  getClientIP (delete "user-agent" sampleForwarded)
    = getClientIP sampleForwarded.
Proof.
  apply (getClientIP_ignores_other_headers sampleForwarded "user-agent"
           "curl/8.5.0"); discriminate.
Defined.

(** X15. A header that is present but empty counts as absent: setting any
    header to the empty string gives the result of removing it. *)
Theorem getClientIP_empty_header_is_absent (headers : Headers) name :
  getClientIP (<[name := ""]> headers) = getClientIP (delete name headers).
Proof.
  assert (forall n,
            <[name := ""]> headers !! n = delete name headers !! n \/
            (<[name := ""]> headers !! n = Some "" /\
             delete name headers !! n = None)) as Hget.
  { intros n. destruct (decide (name = n)) as [-> | Hne].
    - right. by rewrite lookup_insert_eq, lookup_delete_eq.
    - left. by rewrite lookup_insert_ne, lookup_delete_ne. }
  unfold getClientIP, get.
  destruct (Hget "cf-connecting-ip") as [-> | [-> ->]];
    destruct (Hget "x-forwarded-for") as [-> | [-> ->]];
    destruct (Hget "x-real-ip") as [-> | [-> ->]]; reflexivity.
Qed.

(** X16. When [cf-connecting-ip] is not populated and [x-forwarded-for]
    starts with an entry that holds no comma and no white space at its
    ends, followed by nothing or by a comma and more, [getClientIP]
    returns that entry as it is. *)
Theorem getClientIP_first_hop (headers : Headers) ip tail :
  ~ populated headers "cf-connecting-ip" ->
  get headers "x-forwarded-for" = Some (ip +:+ tail) ->
  ip <> "" ->
  noComma ip ->
  trimmed ip ->
  (tail = "" \/ exists more, tail = String "," more) ->
  getClientIP headers = Some ip.
Proof.
  intros Hcf Hxff Hip Hclean Htrim Htail. unfold getClientIP.
  rewrite (truthy_unpopulated _ _ Hcf).
  assert (ip +:+ tail <> "") as Hv by (by destruct ip).
  rewrite (truthy_value _ _ _ Hxff Hv), Hxff.
  rewrite (split_first_of_app ip tail Hclean Htail). cbn.
  by rewrite (trim_clean ip Htrim).
Qed.

Lemma getClientIP_first_hop_witness :
  getClientIP sampleForwarded = Some "1.2.3.4".
Proof.
  apply (getClientIP_first_hop sampleForwarded "1.2.3.4" ", 5.6.6.7").
  - not_populated.
  - reflexivity.
  - discriminate.
  - unfold noComma. cbn. repeat constructor; discriminate.
  - split; intros c [= <-]; reflexivity.
  - right. by eexists.
Defined.

(** X17. [getClientIP] returns the empty string in one way only:
    [cf-connecting-ip] is not populated and [x-forwarded-for] is populated
    with a first entry that trims to nothing. *)
Theorem getClientIP_empty_only_from_forwarded (headers : Headers) :
  getClientIP headers = Some "" ->
  ~ populated headers "cf-connecting-ip" /\
  exists v first,
    get headers "x-forwarded-for" = Some v /\ v <> "" /\
    split "," v !! 0%nat = Some first /\ trim first = "".
Proof.
  unfold getClientIP.
  destruct (truthy (get headers "cf-connecting-ip")) eqn:Hcf.
  { apply truthy_populated in Hcf as (v & -> & Hv). by intros [= ->]. }
  intros Hres. split.
  { intros Hpop. apply truthy_populated in Hpop. congruence. }
  destruct (truthy (get headers "x-forwarded-for")) eqn:Hxff.
  - apply truthy_populated in Hxff as (v & Hget & Hv). rewrite Hget in Hres.
    destruct (split "," v !! 0%nat) as [first|] eqn:Hsplit; [|done].
    cbn in Hres. exists v, first. repeat split; congruence.
  - destruct (truthy (get headers "x-real-ip")) eqn:Hreal; [|done].
    apply truthy_populated in Hreal as (v & Hget & Hv).
    rewrite Hget in Hres. congruence.
Qed.

Lemma getClientIP_empty_only_from_forwarded_witness :
  ~ populated sampleEmptyFirst "cf-connecting-ip" /\
  exists v first,
    get sampleEmptyFirst "x-forwarded-for" = Some v /\ v <> "" /\
    split "," v !! 0%nat = Some first /\ trim first = "".
Proof.
  apply (getClientIP_empty_only_from_forwarded sampleEmptyFirst).
  reflexivity.
Defined.
